(** * Drift Bottle Core API: the request handlers over a document store

    A shallow embedding of [api_service.py].  The service keeps no state of
    its own: every handler is a short sequence of calls to a MongoDB
    database, each call atomic on the server, with an [await] (a point where
    other requests may run) at every call.

    - Documents are Python dictionaries: finite maps from field names to
      values.
    - The database is a pair of collections: [counters], keyed by the
      string [_id] of the counter document, and the bottle collection, a
      list of documents in insertion order.
    - A handler is a program over the store calls it awaits ([Prog]); the
      same program is run in isolation ([run]) and interleaved with other
      requests ([pool_run]).
    - What the source does not determine is supplied by an environment
      ([Env]), one per store call: whether the call fails and what the
      driver's error then says, the random draw of [$sample], and the
      ObjectId the driver generates for an insert.
    - The start of the process is the import of the module followed by the
      startup hook, with the driver's answers supplied likewise
      ([StartEnv]). *)

From Stdlib Require Import ZArith String List Lia.
From stdpp Require Import base option list gmap strings sorting.

Open Scope string_scope.
Open Scope Z_scope.

(** ** Values and documents *)

(** The 12-byte identifier the driver assigns to a stored document. *)
Definition ObjectId := N.

(** [class Image(BaseModel)] *)
Record Image := mkImage { type : string; data : string }.

(** The values found in the documents this service writes and reads.
    [VImages] is the list of [{type, data}] dictionaries of the [images]
    field, kept as the list of the images. *)
Inductive value :=
| VInt (n : Z)
| VStr (s : string)
| VBool (b : bool)
| VImages (l : list Image)
| VOid (o : ObjectId).

#[global] Instance Image_eq_dec : EqDecision Image.
Proof. solve_decision. Defined.
#[global] Instance value_eq_dec : EqDecision value.
Proof. solve_decision. Defined.

(** A Python [dict] with string keys, equally a stored document. *)
Abbreviation Doc := (gmap string value).

(** [d.update({k1: v1, ...})]: later pairs win, as in Python. *)
Definition dict_update (d : Doc) (kvs : list (string * value)) : Doc :=
  fold_left (fun acc kv => <[kv.1 := kv.2]> acc) kvs d.

(** ** Request and response models *)

(** [class BottleIn(BaseModel)] *)
Record BottleIn := mkBottleIn {
  in_content : string;
  in_images : list Image;
  in_sender : string;
  in_sender_id : string;
  in_poke : bool
}.

(** [class BottleOut(BaseModel)] *)
Record BottleOut := mkBottleOut {
  bottle_id : Z;
  content : string;
  images : list Image;
  sender : string;
  sender_id : string;
  picked : bool;
  timestamp : string;
  poke : bool
}.

(** [class BottleCountOut(BaseModel)] *)
Record BottleCountOut := mkBottleCountOut { total_active_bottles : Z }.

#[global] Instance BottleOut_eq_dec : EqDecision BottleOut.
Proof. solve_decision. Defined.

(** [bottle_in.dict()] *)
Definition BottleIn_dict (b : BottleIn) : Doc :=
  dict_update ∅
    [("content", VStr (in_content b));
     ("images", VImages (in_images b));
     ("sender", VStr (in_sender b));
     ("sender_id", VStr (in_sender_id b));
     ("poke", VBool (in_poke b))].

(** Field validators of the response model, on values of the declared
    type.  The validation library may also convert a value of another type
    (a numeric string for an integer, say); those conversions are not part
    of the source and are not modelled: a value of another type is rejected
    here, so a rejection by these validators tells what the code does only
    when it comes from a missing required field. *)
Definition as_int (v : option value) : option Z :=
  match v with Some (VInt n) => Some n | _ => None end.
Definition as_str (v : option value) : option string :=
  match v with Some (VStr s) => Some s | _ => None end.
Definition as_bool (v : option value) : option bool :=
  match v with Some (VBool b) => Some b | _ => None end.
(** [images] is the only field with a default, the empty list. *)
Definition as_images (v : option value) : option (list Image) :=
  match v with
  | None => Some []
  | Some (VImages l) => Some l
  | Some _ => None
  end.

(** [BottleOut.from_mongo_dict(data)], the model built from the keyword
    arguments unpacked from [data]: every declared field is read from the
    dictionary and validated; keys that are not declared fields (such as
    [_id]) are ignored; [None] stands for the validation error raised when a
    required field is missing or ill-typed. *)
Definition from_mongo_dict (data : Doc) : option BottleOut :=
  bid ← as_int (data !! "bottle_id");
  c ← as_str (data !! "content");
  imgs ← as_images (data !! "images");
  s ← as_str (data !! "sender");
  sid ← as_str (data !! "sender_id");
  p ← as_bool (data !! "picked");
  ts ← as_str (data !! "timestamp");
  pk ← as_bool (data !! "poke");
  Some (mkBottleOut bid c imgs s sid p ts pk).

(** The JSON object a [BottleOut] is serialised to in a response body. *)
Definition BottleOut_dict (b : BottleOut) : Doc :=
  dict_update ∅
    [("bottle_id", VInt (bottle_id b));
     ("content", VStr (content b));
     ("images", VImages (images b));
     ("sender", VStr (sender b));
     ("sender_id", VStr (sender_id b));
     ("picked", VBool (picked b));
     ("timestamp", VStr (timestamp b));
     ("poke", VBool (poke b))].


(** ** Exceptions *)

Inductive exn :=
| HTTPException (status_code : Z) (detail : string)
| PyMongoError (msg : string)   (* a failure reported by the driver, with its text *)
| KeyError (key : string)
| TypeError (msg : string)
| ValidationError.

Definition HTTP_200_OK : Z := 200.
Definition HTTP_404_NOT_FOUND : Z := 404.
Definition HTTP_500_INTERNAL_SERVER_ERROR : Z := 500.

(** [f"{e}"], the text of an exception.  A driver error carries the text
    the driver gave it, which the environment supplies ([errmsg] below); a
    [KeyError] prints its key quoted.  The report of a validation error is
    composed by the validation library from the rejected input and is not
    modelled: only its class name stands for it, and no property below
    depends on that text.  The handlers never interpolate an
    [HTTPException]. *)
Definition exn_str (e : exn) : string :=
  match e with
  | HTTPException _ d => d
  | PyMongoError msg => msg
  | KeyError k => "'" ++ k ++ "'"
  | TypeError msg => msg
  | ValidationError => "ValidationError"
  end.

(** ** Module initialisation (lines 12-21) *)

(** Python truthiness of the result of [os.getenv]: [None] and the empty
    string are false. *)
Definition truthy (v : option string) : bool :=
  match v with
  | None => false
  | Some s => negb (String.eqb s "")
  end.

Inductive ModuleInit :=
| ValueError (msg : string)
| Loaded.

(** The checks run when the module is imported, given what [os.getenv]
    returned for the three settings. *)
Definition module_init (MONGO_URI DATABASE_NAME COLLECTION_NAME : option string)
  : ModuleInit :=
  if negb (truthy MONGO_URI) then
    ValueError "MONGO_URI environment variable is not set. Please set it in .env or your deployment environment."
  else if negb (truthy DATABASE_NAME) then
    ValueError "DATABASE_NAME environment variable is not set. Please set it in .env or your deployment environment."
  else Loaded.

(** ** The startup hook (lines 68-83) *)

(** What the driver decides while the service starts. *)
Record StartEnv := mkStartEnv {
  client_error : option string;          (* [MongoClient(...)] raises, with this text *)
  name_error : string → option string;   (* the driver refuses this non-empty name *)
  ping_error : option string             (* the ping raises, with this text *)
}.

(** The module's global handles; [None] is Python's [None].  A client
    remembers its connection string, a database and a collection their
    name. *)
Record Globals := mkGlobals {
  client : option (option string);
  db : option string;
  bottles_collection : option string
}.

Definition no_globals : Globals := mkGlobals None None None.

(** [parent[name]] of the driver, for a database of a client and for a
    collection of a database: the name must be a string, must not be empty,
    and must pass the driver's other naming rules. *)
Definition getitem (env : StartEnv) (empty_msg : string) (name : option string)
  : exn + string :=
  match name with
  | None => inl (TypeError "name must be an instance of str")
  | Some s =>
      if String.eqb s "" then inl (PyMongoError empty_msg)
      else match name_error env s with
           | Some msg => inl (PyMongoError msg)
           | None => inr s
           end
  end.

(** The body of the [try] of [startup_db_client]: the globals as the
    assignments reached left them, and the exception raised, if any. *)
Definition connect (env : StartEnv)
    (MONGO_URI DATABASE_NAME COLLECTION_NAME : option string) (g : Globals)
  : Globals * option exn :=
  match client_error env with
  | Some msg => (g, Some (PyMongoError msg))
  | None =>
      let g := mkGlobals (Some MONGO_URI) (db g) (bottles_collection g) in
      match getitem env "database name cannot be the empty string" DATABASE_NAME with
      | inl ex => (g, Some ex)
      | inr d =>
          let g := mkGlobals (client g) (Some d) (bottles_collection g) in
          match getitem env "collection names cannot be empty" COLLECTION_NAME with
          | inl ex => (g, Some ex)
          | inr c =>
              let g := mkGlobals (client g) (db g) (Some c) in
              match ping_error env with
              | Some msg => (g, Some (PyMongoError msg))
              | None => (g, None)
              end
          end
      end
  end.

(** [startup_db_client]: every exception of the [try] is raised again as
    an [HTTPException] with status 500. *)
Definition startup_db_client (env : StartEnv)
    (MONGO_URI DATABASE_NAME COLLECTION_NAME : option string) (g : Globals)
  : Globals * option exn :=
  match connect env MONGO_URI DATABASE_NAME COLLECTION_NAME g with
  | (g', Some e) =>
      (g', Some (HTTPException HTTP_500_INTERNAL_SERVER_ERROR
                   ("Failed to connect to database on startup: " ++ exn_str e)))
  | (g', None) => (g', None)
  end.

(** How the start of the process ends: the import of the module raised,
    the startup hook raised (the application then does not start), or the
    service is up with its handles. *)
Inductive Start :=
| LoadFailed (msg : string)
| StartupFailed (ex : exn)
| Serving (g : Globals).

Definition process_start (env : StartEnv)
    (MONGO_URI DATABASE_NAME COLLECTION_NAME : option string) : Start :=
  match module_init MONGO_URI DATABASE_NAME COLLECTION_NAME with
  | ValueError msg => LoadFailed msg
  | Loaded =>
      match startup_db_client env MONGO_URI DATABASE_NAME COLLECTION_NAME no_globals with
      | (_, Some ex) => StartupFailed ex
      | (g, None) => Serving g
      end
  end.

(** ** The document store *)

Record Store := mkStore {
  counters : gmap string Doc;   (* db["counters"], by the string [_id] *)
  bottles : list Doc            (* bottles_collection, in insertion order *)
}.

(** What the environment decides at one store call. *)
Record Env := mkEnv {
  fault : bool;        (* the call raises and leaves the store as it was *)
  rnd : nat;           (* the draw of [$sample] *)
  fresh : ObjectId;    (* the ObjectId generated for an insert *)
  errmsg : string      (* the text of the driver's error, if the call raises *)
}.

(** The store calls the handlers await, each atomic on the server. *)
Inductive StoreOp : Type → Type :=
| FindOneAndUpdateInc (sequence_name : string) : StoreOp Doc
    (* counters.find_one_and_update({'_id': name}, {'$inc': {'seq': 1}},
         upsert=True, return_document=AFTER) *)
| InsertOne (document : Doc) : StoreOp Doc
    (* bottles.insert_one(document); answers the document as the driver
       left it, with its [_id] *)
| AggregateSample (sender_id : string) : StoreOp (list Doc)
    (* bottles.aggregate([{$match: {picked: False, sender_id: {$ne: sender_id}}},
         {$sample: {size: 1}}]).to_list(length=1) *)
| UpdateOneSetPicked (_id : value) : StoreOp unit
    (* bottles.update_one({'_id': _id}, {'$set': {'picked': True}}) *)
| CountDocuments : StoreOp Z.
    (* bottles.count_documents({'picked': False}) *)

(** [{'$inc': {'seq': 1}}] on an existing document: a missing field is set
    to the increment, a number is incremented, anything else is a write
    error. *)
Definition inc_seq (d : Doc) : option Doc :=
  match d !! "seq" with
  | None => Some (<["seq" := VInt 1]> d)
  | Some (VInt n) => Some (<["seq" := VInt (n + 1)]> d)
  | Some _ => None
  end.

(** With [upsert=True] a missing document is created from the filter and
    the update; the document after the update is returned. *)
Definition find_one_and_update_inc (cs : gmap string Doc) (sequence_name : string)
  : option (gmap string Doc * Doc) :=
  match cs !! sequence_name with
  | None =>
      let d : Doc := dict_update ∅ [("_id", VStr sequence_name); ("seq", VInt 1)] in
      Some (<[sequence_name := d]> cs, d)
  | Some d =>
      match inc_seq d with
      | Some d' => Some (<[sequence_name := d']> cs, d')
      | None => None
      end
  end.

Definition has_id (idv : value) (d : Doc) : bool :=
  bool_decide (d !! "_id" = Some idv).

(** The driver adds an [_id] to a document that has none; the server
    refuses a document whose [_id] is already in the collection. *)
Definition insert_one (bs : list Doc) (document : Doc) (oid : ObjectId)
  : option (list Doc * Doc) :=
  let idv := default (VOid oid) (document !! "_id") in
  let document := <["_id" := idv]> document in
  if existsb (has_id idv) bs then None
  else Some ((bs ++ [document])%list, document).

(** [{"picked": False, "sender_id": {"$ne": sender_id}}]: the field
    [picked] is present and false; the field [sender_id] is absent or
    differs from the requester's. *)
Definition eligible (sender_id : string) (d : Doc) : Prop :=
  d !! "picked" = Some (VBool false) ∧ d !! "sender_id" ≠ Some (VStr sender_id).

#[global] Instance eligible_dec s d : Decision (eligible s d).
Proof. unfold eligible. apply _. Defined.

(** [{"picked": False}] *)
Definition unclaimed (d : Doc) : Prop := d !! "picked" = Some (VBool false).

#[global] Instance unclaimed_dec d : Decision (unclaimed d).
Proof. unfold unclaimed. apply _. Defined.

(** [{"$sample": {"size": 1}}] followed by [to_list(length=1)]: one
    document of the input, chosen by the draw, or none when the input is
    empty. *)
Definition sample1 (r : nat) (l : list Doc) : list Doc :=
  match l !! (r mod length l)%nat with
  | Some d => [d]
  | None => []
  end.

Definition aggregate_sample (bs : list Doc) (sender_id : string) (r : nat) : list Doc :=
  sample1 r (filter (eligible sender_id) bs).

(** [update_one] changes the first document that matches the filter, here
    the [_id] alone, and is not an error when none matches. *)
Fixpoint update_one_set_picked (idv : value) (bs : list Doc) : list Doc :=
  match bs with
  | [] => []
  | d :: bs' =>
      if has_id idv d then <["picked" := VBool true]> d :: bs'
      else d :: update_one_set_picked idv bs'
  end.

Definition count_documents (bs : list Doc) : Z :=
  Z.of_nat (length (filter unclaimed bs)).

(** One store call: the new store and the answer or the exception raised. *)
Definition exec_op {B} (e : Env) (op : StoreOp B) (st : Store) : Store * (exn + B) :=
  if fault e then (st, inl (PyMongoError (errmsg e)))
  else
    match op in StoreOp B return Store * (exn + B) with
    | FindOneAndUpdateInc name =>
        match find_one_and_update_inc (counters st) name with
        | Some (cs, d) => (mkStore cs (bottles st), inr d)
        | None => (st, inl (PyMongoError (errmsg e)))
        end
    | InsertOne document =>
        match insert_one (bottles st) document (fresh e) with
        | Some (bs, d) => (mkStore (counters st) bs, inr d)
        | None => (st, inl (PyMongoError (errmsg e)))
        end
    | AggregateSample sender_id =>
        (st, inr (aggregate_sample (bottles st) sender_id (rnd e)))
    | UpdateOneSetPicked idv =>
        (mkStore (counters st) (update_one_set_picked idv (bottles st)), inr tt)
    | CountDocuments =>
        (st, inr (count_documents (bottles st)))
    end.

(** ** Handler programs *)

(** A coroutine: it returns, raises, or awaits a store call and goes on
    with the call's outcome. *)
Inductive Prog (A : Type) : Type :=
| Ret (a : A)
| Raise (e : exn)
| Await {B : Type} (op : StoreOp B) (k : exn + B → Prog A).

Arguments Ret {A} a.
Arguments Raise {A} e.
Arguments Await {A B} op k.

Fixpoint bind {A C} (p : Prog A) (f : A → Prog C) : Prog C :=
  match p with
  | Ret a => f a
  | Raise e => Raise e
  | Await op k => Await op (fun r => bind (k r) f)
  end.

#[global] Instance Prog_bind : MBind Prog := fun A C f p => bind p f.
#[global] Instance Prog_ret : MRet Prog := fun A a => Ret a.

(** [try: p except Exception as e: h e] *)
Fixpoint try_except {A} (p : Prog A) (h : exn → Prog A) : Prog A :=
  match p with
  | Ret a => Ret a
  | Raise e => h e
  | Await op k => Await op (fun r => try_except (k r) h)
  end.

(** [await op] *)
Definition call {B} (op : StoreOp B) : Prog B :=
  Await op (fun r => match r with inl e => Raise e | inr b => Ret b end).

(** [d[key]] *)
Definition subscript (d : Doc) (key : string) : Prog value :=
  match d !! key with
  | Some v => Ret v
  | None => Raise (KeyError key)
  end.

Definition validated {A} (o : option A) : Prog A :=
  match o with
  | Some a => Ret a
  | None => Raise ValidationError
  end.

(** [get_next_sequence_value] (lines 93-104) *)
Definition get_next_sequence_value (sequence_name : string) : Prog value :=
  sequence_document ← call (FindOneAndUpdateInc sequence_name);
  subscript sequence_document "seq".

(** [add_bottle] (lines 116-141); [now] is the formatted reading of the
    clock at line 129. *)
Definition add_bottle (now : string) (bottle_in : BottleIn) : Prog BottleOut :=
  try_except
    (let bottle_data := BottleIn_dict bottle_in in
     new_id ← get_next_sequence_value "bottle_id";
     let bottle_data :=
       dict_update bottle_data
         [("bottle_id", new_id);
          ("picked", VBool false);
          ("timestamp", VStr now)] in
     bottle_data ← call (InsertOne bottle_data);
     validated (from_mongo_dict bottle_data))
    (fun e =>
       Raise (HTTPException HTTP_500_INTERNAL_SERVER_ERROR
                ("Internal server error while adding bottle: " ++ exn_str e))).

(** [pick_random_bottle] (lines 149-186) *)
Definition pick_random_bottle (sender_id : string) : Prog BottleOut :=
  try_except
    (bottles ← call (AggregateSample sender_id);
     match bottles with
     | [] =>
         Raise (HTTPException HTTP_404_NOT_FOUND "No available bottles to pick.")
     | bottle_doc :: _ =>
         _id ← subscript bottle_doc "_id";
         _ ← call (UpdateOneSetPicked _id);
         validated (from_mongo_dict bottle_doc)
     end)
    (fun e =>
       match e with
       | HTTPException _ _ => Raise e
       | _ =>
           Raise (HTTPException HTTP_500_INTERNAL_SERVER_ERROR
                    ("Internal server error while picking bottle: " ++ exn_str e))
       end).

(** [get_active_bottle_counts] (lines 193-206) *)
Definition get_active_bottle_counts : Prog BottleCountOut :=
  try_except
    (total_active_bottles ← call CountDocuments;
     Ret (mkBottleCountOut total_active_bottles))
    (fun e =>
       Raise (HTTPException HTTP_500_INTERNAL_SERVER_ERROR
                ("Internal server error while getting bottle counts: " ++ exn_str e))).

(** ** Running a request in isolation *)

(** The handler runs to its end with no other request in between; [es n]
    is the environment of its [n]-th store call. *)
Fixpoint run {A} (p : Prog A) (es : nat → Env) (st : Store) : Store * (exn + A) :=
  match p with
  | Ret a => (st, inr a)
  | Raise e => (st, inl e)
  | Await op k =>
      let '(st', r) := exec_op (es 0%nat) op st in
      run (k r) (fun n => es (S n)) st'
  end.

(** ** Responses *)

Record Response := mkResponse { status : Z; body : Doc }.

(** The response the framework sends for the outcome of a handler whose
    route declares [ok] as its status code and whose response model is
    serialised by [to_dict]. *)
Definition respond {A} (ok : Z) (to_dict : A → Doc) (r : exn + A) : Response :=
  match r with
  | inr a => mkResponse ok (to_dict a)
  | inl (HTTPException c d) => mkResponse c {[ "detail" := VStr d ]}
  | inl _ => mkResponse HTTP_500_INTERNAL_SERVER_ERROR ∅
  end.

(** ** Requests served concurrently *)

Inductive Request :=
| AddReq (now : string) (bottle_in : BottleIn)   (* POST /bottles/ *)
| PickReq (sender_id : string)                   (* POST /bottles/pick/{sender_id} *)
| CountReq.                                      (* GET /bottles/counts/active *)

Inductive Reply :=
| ReplyBottle (b : BottleOut)
| ReplyCount (c : BottleCountOut).

(** The coroutine the router starts for a request. *)
Definition serve (req : Request) : Prog Reply :=
  match req with
  | AddReq now bottle_in => out ← add_bottle now bottle_in; Ret (ReplyBottle out)
  | PickReq sender_id => out ← pick_random_bottle sender_id; Ret (ReplyBottle out)
  | CountReq => c ← get_active_bottle_counts; Ret (ReplyCount c)
  end.

(** A store call as it happened: the request that made it, the store it
    met, the call and its outcome. *)
Inductive Event :=
| Called (tid : nat) (st : Store) {B : Type} (op : StoreOp B) (res : exn + B).

Definition ev_tid (ev : Event) : nat :=
  match ev with Called tid _ _ _ => tid end.

(** The store, the coroutines of the requests in flight (finished ones
    stay, as [Ret] or [Raise]) and the calls made so far, oldest first. *)
Record World := mkWorld {
  store : Store;
  pool : list (Prog Reply);
  trace : list Event
}.

(** The event loop resumes request [c.1], which makes its next store call
    in environment [c.2]; a finished or unknown request is skipped. *)
Definition pool_step (w : World) (c : nat * Env) : World :=
  match pool w !! c.1 with
  | Some (Await op k) =>
      let '(st', r) := exec_op c.2 op (store w) in
      mkWorld st' (<[c.1 := k r]> (pool w))
              (trace w ++ [Called c.1 (store w) op r])%list
  | _ => w
  end.

(** Any interleaving of the requests is a schedule. *)
Definition pool_run (sched : list (nat * Env)) (w : World) : World :=
  fold_left pool_step sched w.

Definition boot (st : Store) (reqs : list Request) : World :=
  mkWorld st (serve <$> reqs) [].

(** The value of counter [name], when it has a number. *)
Definition seq_of (st : Store) (name : string) : option Z :=
  d ← counters st !! name; as_int (d !! "seq").

(** The id a call issued from sequence [name], with the request it was
    issued to. *)
Definition issued_ev (name : string) (ev : Event) : option (nat * Z) :=
  match ev with
  | Called tid _ op res =>
      match op in StoreOp B return exn + B → option (nat * Z) with
      | FindOneAndUpdateInc name' => fun res =>
          match res with
          | inr d => if decide (name' = name) then pair tid <$> as_int (d !! "seq") else None
          | inl _ => None
          end
      | _ => fun _ => None
      end res
  end.

(** The ids issued from sequence [name] along a trace, in issuance order. *)
Definition issued_by (name : string) (tr : list Event) : list (nat * Z) :=
  omap (issued_ev name) tr.

Definition issued (name : string) (tr : list Event) : list Z :=
  (issued_by name tr).*2.

(** The documents a call sampled, with the store they were sampled from. *)
Definition sampled_ev (ev : Event) : option (nat * string * Store * list Doc) :=
  match ev with
  | Called tid st op res =>
      match op in StoreOp B return exn + B → option (nat * string * Store * list Doc) with
      | AggregateSample sender_id => fun res =>
          match res with
          | inr l => Some (tid, sender_id, st, l)
          | inl _ => None
          end
      | _ => fun _ => None
      end res
  end.

(** [follows p tr tid q]: request [tid], started as [p], has become [q] by
    making the calls [tr], each answered by the store as it then was. *)
Fixpoint follows {A} (p : Prog A) (tr : list Event) (tid : nat) (q : Prog A)
  {struct tr} : Prop :=
  match tr with
  | [] => q = p
  | ev :: tr' =>
      match p with
      | Await op k =>
          ∃ e st, ev = Called tid st op (exec_op e op st).2
                  ∧ follows (k (exec_op e op st).2) tr' tid q
      | _ => False
      end
  end.

(** The calls of one request within a trace. *)
Definition calls_of (tid : nat) (tr : list Event) : list Event :=
  filter (fun ev => ev_tid ev = tid) tr.

(** The calls made on the way from world [w] to a later world [w']. *)
Definition later (w w' : World) : list Event :=
  drop (length (trace w)) (trace w').

(** One step of a single coroutine: its pending call is made against
    [st]; a finished coroutine stays as it is. *)
Definition resume {A} (e : Env) (st : Store) (p : Prog A) : Store * Prog A :=
  match p with
  | Await op k => let '(st', r) := exec_op e op st in (st', k r)
  | _ => (st, p)
  end.

(** ** Vocabulary of the properties *)

(** The store refuses a second document with an [_id] already in the
    collection, so the identities present are pairwise distinct. *)
Definition ids_unique (bs : list Doc) : Prop :=
  NoDup (omap (fun d : Doc => d !! "_id") bs).

(** Counter [name] can be incremented: it is absent, or its [seq] field is
    absent or a number. *)
Definition counter_ok (st : Store) (name : string) : Prop :=
  ∀ d v, counters st !! name = Some d → d !! "seq" = Some v → ∃ n, v = VInt n.

(** The record at position [k] of the collection exists and is not
    claimed. *)
Definition unclaimed_at (st : Store) (k : nat) : Prop :=
  match bottles st !! k with
  | Some d => unclaimed d
  | None => False
  end.

#[global] Instance unclaimed_at_dec st k : Decision (unclaimed_at st k).
Proof. unfold unclaimed_at. destruct (bottles st !! k); apply _. Defined.

(** The records that are not claimed, each identified by its position in
    the collection. *)
Definition unclaimed_records (st : Store) : gset nat :=
  list_to_set (filter (unclaimed_at st) (seq 0 (length (bottles st)))).

(** The fields [BottleOut] declares. *)
Definition declared_fields : gset string :=
  list_to_set
    ["bottle_id"; "content"; "images"; "sender"; "sender_id"; "picked";
     "timestamp"; "poke"].


(** ** Sample data *)

Definition healthy : nat → Env := fun n => mkEnv false 0 (N.of_nat n) "".
Definition empty_store : Store := mkStore ∅ [].
Definition bottle_a : BottleIn := mkBottleIn "hello" [] "alice" "u1" false.
Definition bottle_b : BottleIn :=
  mkBottleIn "hi" [mkImage "png" "http://example.org/b.png"] "bob" "u2" true.

(** Two creation requests in flight together. *)
Definition two_creations : list Request :=
  [AddReq "2024-05-01 10:00:00" bottle_a; AddReq "2024-05-01 10:00:00" bottle_b].

(** Both creations allocate before either inserts. *)
Definition overlapped : list (nat * Env) :=
  [(1%nat, mkEnv false 0 0%N ""); (0%nat, mkEnv false 0 0%N "");
   (0%nat, mkEnv false 0 7%N ""); (1%nat, mkEnv false 0 8%N "")].

(** The only unclaimed bottle is the requester's own. *)
Definition only_own : Store :=
  (run (add_bottle "2024-05-01 10:00:00" bottle_a) healthy empty_store).1.

(** The stored document of that bottle and the response built from it. *)
Definition doc_a : Doc := default ∅ (head (bottles only_own)).
Definition out_a : BottleOut :=
  mkBottleOut 1 "hello" [] "alice" "u1" false "2024-05-01 10:00:00" false.

(** The same store after a first requester has claimed the bottle. *)
Definition claimed_once : Store :=
  (run (pick_random_bottle "u3") healthy only_own).1.

(** Two claim requests; both sample before either marks. *)
Definition two_claims : list Request := [PickReq "u2"; PickReq "u3"].
Definition both_sample_first : list (nat * Env) :=
  [(0%nat, healthy 0); (1%nat, healthy 0); (0%nat, healthy 0); (1%nat, healthy 0)].

(** The store answers the first call and fails the second. *)
Definition insert_fails : nat → Env :=
  fun n => mkEnv (if n is 1%nat then true else false) 0 (N.of_nat n)
                 "connection closed".

(** The identity [idv] is in the collection and every record that carries
    it is claimed. *)
Definition settled (idv : value) (bs : list Doc) : Prop :=
  (∃ d, d ∈ bs ∧ d !! "_id" = Some idv)
  ∧ ∀ d, d ∈ bs → d !! "_id" = Some idv → d !! "picked" = Some (VBool true).

(** A second bottle, from another sender, added to the first. *)
Definition two_bottles : Store :=
  (run (add_bottle "2024-05-01 10:05:00" bottle_b) (fun n => healthy (n + 2)) only_own).1.
Definition out_b : BottleOut :=
  mkBottleOut 2 "hi" [mkImage "png" "http://example.org/b.png"] "bob" "u2" false
              "2024-05-01 10:05:00" true.

(** One claim request, run to its end. *)
Definition one_claim : list (nat * Env) := [(0%nat, healthy 0); (0%nat, healthy 1)].

(** A driver that accepts every name and answers the ping. *)
Definition driver_ok : StartEnv := mkStartEnv None (fun _ => None) None.

(** ** Identities in text *)








(** The fields [BottleOut] requires: all but [images], which has a
    default. *)
Definition required_fields : list string :=
  ["bottle_id"; "content"; "sender"; "sender_id"; "picked"; "timestamp"; "poke"].

(** The stored document of the second sample bottle. *)
Definition doc_b : Doc := default ∅ (last (bottles two_bottles)).

(** A collection holding one document that was not written by this
    service: it has no [content]. *)
Definition foreign_doc : Doc :=
  dict_update ∅
    [("_id", VOid 9%N); ("bottle_id", VInt 41); ("sender", VStr "carol");
     ("sender_id", VStr "u9"); ("picked", VBool false);
     ("timestamp", VStr "2024-04-30 08:00:00"); ("poke", VBool false)].
Definition foreign_store : Store := mkStore ∅ [foreign_doc].

(** The document a creation stores: the request's fields, the id, the
    flag, the clock reading and the identity given by the driver. *)
Definition stored_doc (now : string) (b : BottleIn) (n : Z) (oid : ObjectId) : Doc :=
  <["_id" := VOid oid]>
    (dict_update (BottleIn_dict b)
       [("bottle_id", VInt n); ("picked", VBool false); ("timestamp", VStr now)]).

(** The integer [bottle_id]s found in a collection, in order. *)
Definition bids (bs : list Doc) : list Z :=
  omap (fun d : Doc => as_int (d !! "bottle_id")) bs.

(** The [bottle_id] of the document a call inserted. *)
Definition inserted_ev (ev : Event) : option Z :=
  match ev with
  | Called _ _ op res =>
      match op in StoreOp B return exn + B → option Z with
      | InsertOne _ => fun res =>
          match res with
          | inr d => as_int (d !! "bottle_id")
          | inl _ => None
          end
      | _ => fun _ => None
      end res
  end.
(** * Properties *)

(** ** The store calls *)

Lemma exec_op_fault {B} e (op : StoreOp B) st :
  fault e = true → exec_op e op st = (st, inl (PyMongoError (errmsg e))).
Proof. intros H. unfold exec_op. by rewrite H. Qed.

Lemma inc_seq_spec d d' :
  inc_seq d = Some d' →
  d' = <["seq" := VInt (default 0 (as_int (d !! "seq")) + 1)]> d.
Proof.
  unfold inc_seq. destruct (d !! "seq") as [[]|] eqn:E; intros [= <-]; done.
Qed.

Lemma find_one_and_update_inc_spec cs name cs' d :
  find_one_and_update_inc cs name = Some (cs', d) →
  cs' = <[name := d]> cs
  ∧ d !! "seq" = Some (VInt (default 0 (cs !! name ≫= fun d0 => as_int (d0 !! "seq")) + 1)).
Proof.
  unfold find_one_and_update_inc.
  destruct (cs !! name) as [d0|] eqn:E; simpl.
  - destruct (inc_seq d0) as [d1|] eqn:E1; intros [= <- <-].
    apply inc_seq_spec in E1 as ->. split; [done|]. by rewrite lookup_insert_eq.
  - intros [= <- <-]. split; [done|]. done.
Qed.

(** The allocator's call, whatever the store and the environment: it
    answers the counter's previous value plus one (a missing counter or
    field counting as zero) and leaves that value in the counter, or it
    raises and changes nothing. *)
Lemma alloc_step e st name st' r :
  exec_op e (FindOneAndUpdateInc name) st = (st', r) →
  match r with
  | inr d =>
      d !! "seq" = Some (VInt (default 0 (seq_of st name) + 1))
      ∧ counters st' = <[name := d]> (counters st)
      ∧ bottles st' = bottles st
  | inl _ => st' = st
  end.
Proof.
  unfold exec_op. destruct (fault e); [by intros [= <- <-]|].
  destruct (find_one_and_update_inc _ _) as [[cs d]|] eqn:E; intros [= <- <-]; [|done].
  apply find_one_and_update_inc_spec in E as [-> E]. done.
Qed.

Lemma seq_of_alloc e st name st' d :
  exec_op e (FindOneAndUpdateInc name) st = (st', inr d) →
  seq_of st' name = Some (default 0 (seq_of st name) + 1).
Proof.
  intros H. apply alloc_step in H as (Hd & Hc & _).
  unfold seq_of at 1. rewrite Hc, lookup_insert_eq. simpl. by rewrite Hd.
Qed.

Lemma seq_of_alloc_ne e st name name' st' r :
  name' ≠ name →
  exec_op e (FindOneAndUpdateInc name') st = (st', r) →
  seq_of st' name = seq_of st name.
Proof.
  intros Hne H. apply alloc_step in H. destruct r as [|d]; [by subst|].
  destruct H as (_ & Hc & _). unfold seq_of. by rewrite Hc, lookup_insert_ne.
Qed.

(** What one call does to a counter and to the ids issued from it. *)
Lemma exec_op_issued {B} name tid e (op : StoreOp B) st :
  match issued_ev name (Called tid st op (exec_op e op st).2) with
  | Some (i, n) =>
      i = tid ∧ n = default 0 (seq_of st name) + 1
      ∧ seq_of (exec_op e op st).1 name = Some n
  | None => seq_of (exec_op e op st).1 name = seq_of st name
  end.
Proof.
  destruct op; simpl;
    try (unfold exec_op; destruct (fault e); simpl; try done;
         repeat case_match; simplify_eq; done).
  destruct (exec_op e (FindOneAndUpdateInc sequence_name) st) as [st' r] eqn:E. simpl.
  destruct r as [ex|d].
  - apply alloc_step in E. by subst.
  - case_decide as Hn.
    + subst. pose proof (seq_of_alloc _ _ _ _ _ E) as Hs.
      apply alloc_step in E as (Hd & _). rewrite Hd. simpl. done.
    + by eapply seq_of_alloc_ne.
Qed.

(** A store call that raises raises the driver's error and changes
    nothing. *)
Lemma exec_op_raises {B} e (op : StoreOp B) st st' ex :
  exec_op e op st = (st', inl ex) → ex = PyMongoError (errmsg e) ∧ st' = st.
Proof.
  unfold exec_op. destruct (fault e); [by intros [= <- <-]|].
  destruct op; simpl; try done.
  - destruct (find_one_and_update_inc _ _) as [[]|]; by intros [= <- <-].
  - destruct (insert_one _ _ _) as [[]|]; by intros [= <- <-].
Qed.

(** ** Interleavings *)

Lemma pool_run_app s1 s2 w : pool_run (s1 ++ s2) w = pool_run s2 (pool_run s1 w).
Proof. apply fold_left_app. Qed.

Lemma pool_step_cases w c :
  pool_step w c = w
  ∨ ∃ B (op : StoreOp B) k,
      pool w !! c.1 = Some (Await op k)
      ∧ pool_step w c =
          mkWorld (exec_op c.2 op (store w)).1
                  (<[c.1 := k (exec_op c.2 op (store w)).2]> (pool w))
                  (trace w ++ [Called c.1 (store w) op (exec_op c.2 op (store w)).2]).
Proof.
  unfold pool_step. destruct (pool w !! c.1) as [[a|ex|B op k]|] eqn:E; auto.
  right. exists B, op, k. split; [done|]. by destruct (exec_op _ _ _).
Qed.

(** Every request follows its own program, whatever the others do. *)
Lemma pool_run_follows sched : ∀ w i p,
  pool w !! i = Some p →
  ∃ new q, trace (pool_run sched w) = (trace w ++ new)%list
           ∧ pool (pool_run sched w) !! i = Some q
           ∧ follows p (calls_of i new) i q.
Proof.
  induction sched as [|c s IH]; intros w i p Hp; simpl.
  { exists [], p. rewrite app_nil_r. repeat split; done. }
  destruct (pool_step_cases w c) as [->|(B & op & k & Hc & ->)]; [by apply IH|].
  destruct (decide (c.1 = i)) as [<-|Hne].
  - assert (p = Await op k) as -> by congruence.
    edestruct (IH (mkWorld (exec_op c.2 op (store w)).1
                     (<[c.1 := k (exec_op c.2 op (store w)).2]> (pool w))
                     (trace w ++ [Called c.1 (store w) op (exec_op c.2 op (store w)).2]))
                  c.1) as (new & q & Ht & Hq & Hf).
    { simpl. apply list_lookup_insert_eq. by eapply lookup_lt_Some. }
    eexists (_ :: new), q. split; [|split; [done|]].
    + rewrite Ht. simpl. by rewrite <- app_assoc.
    + unfold calls_of. rewrite filter_cons_True by done. simpl. eauto.
  - edestruct (IH (mkWorld (exec_op c.2 op (store w)).1
                     (<[c.1 := k (exec_op c.2 op (store w)).2]> (pool w))
                     (trace w ++ [Called c.1 (store w) op (exec_op c.2 op (store w)).2]))
                  i p) as (new & q & Ht & Hq & Hf).
    { simpl. by rewrite list_lookup_insert_ne. }
    eexists (_ :: new), q. split; [|split; [done|]].
    + rewrite Ht. simpl. by rewrite <- app_assoc.
    + unfold calls_of. rewrite filter_cons_False by done. done.
Qed.

Lemma issued_cons name ev tr :
  issued name (ev :: tr) =
  (match issued_ev name ev with Some (_, n) => [n] | None => [] end ++ issued name tr)%list.
Proof.
  unfold issued, issued_by. simpl. destruct (issued_ev name ev) as [[]|]; done.
Qed.

(** The ids issued from one sequence along any interleaving increase
    strictly, and all exceed the counter's value at the start. *)
Lemma pool_run_issued name sched : ∀ w,
  ∃ new, trace (pool_run sched w) = (trace w ++ new)%list
         ∧ StronglySorted Z.lt (issued name new)
         ∧ Forall (fun n => default 0 (seq_of (store w) name) < n) (issued name new)
         ∧ default 0 (seq_of (store w) name)
           ≤ default 0 (seq_of (store (pool_run sched w)) name).
Proof.
  induction sched as [|c s IH]; intros w; simpl.
  { exists []. rewrite app_nil_r. repeat split; try constructor. lia. }
  destruct (pool_step_cases w c) as [->|(B & op & k & Hc & ->)]; [by apply IH|].
  edestruct (IH (mkWorld (exec_op c.2 op (store w)).1
                   (<[c.1 := k (exec_op c.2 op (store w)).2]> (pool w))
                   (trace w ++ [Called c.1 (store w) op (exec_op c.2 op (store w)).2])))
    as (new & Ht & Hs & Hf & Hm).
  simpl in *.
  eexists (_ :: new). split; [rewrite Ht; by rewrite <- app_assoc|].
  rewrite issued_cons.
  pose proof (exec_op_issued name c.1 c.2 op (store w)) as Hi.
  destruct (issued_ev name _) as [[i n]|]; simpl.
  - destruct Hi as (_ & -> & Hi). rewrite Hi in Hf, Hm. simpl in *.
    split; [|split].
    + constructor; [done|]. done.
    + constructor; [lia|]. eapply Forall_impl; [exact Hf|]. simpl. intros; lia.
    + lia.
  - rewrite Hi in Hf, Hm. done.
Qed.

(** The event loop resuming a request is the request's own step. *)
Lemma pool_step_resume w i e p :
  pool w !! i = Some p →
  store (pool_step w (i, e)) = (resume e (store w) p).1
  ∧ pool (pool_step w (i, e)) = <[i := (resume e (store w) p).2]> (pool w).
Proof.
  intros Hp. unfold pool_step, resume. simpl. rewrite Hp.
  destruct p as [a|ex|B op k]; simpl; try by rewrite list_insert_id.
  by destruct (exec_op e op (store w)).
Qed.

(** Running in isolation is stepping until the coroutine has finished. *)
Lemma run_resume {A} (p : Prog A) es st :
  run p es st
  = match p with
    | Await _ _ =>
        run (resume (es 0%nat) st p).2 (fun n => es (S n)) (resume (es 0%nat) st p).1
    | Ret a => (st, inr a)
    | Raise ex => (st, inl ex)
    end.
Proof.
  destruct p as [a|ex|B op k]; simpl; try done.
  by destruct (exec_op (es 0%nat) op st).
Qed.

(** ** The calls of the handlers *)

Lemma insert_step e st document st' r :
  exec_op e (InsertOne document) st = (st', r) →
  match r with
  | inr d =>
      let idv := default (VOid (fresh e)) (document !! "_id") in
      d = <["_id" := idv]> document
      ∧ existsb (has_id idv) (bottles st) = false
      ∧ bottles st' = (bottles st ++ [d])%list
      ∧ counters st' = counters st
  | inl _ => st' = st
  end.
Proof.
  unfold exec_op. destruct (fault e); [by intros [= <- <-]|].
  unfold insert_one. destruct (existsb _ _) eqn:E; intros [= <- <-]; done.
Qed.

Lemma sample1_spec r l d :
  d ∈ sample1 r l → sample1 r l = [d] ∧ d ∈ l.
Proof.
  unfold sample1. destruct (l !! _) as [d'|] eqn:E; [|by intros ?%elem_of_nil].
  intros ->%list_elem_of_singleton. split; [done|]. by eapply list_elem_of_lookup_2.
Qed.

Lemma sample1_nil r l : sample1 r l = [] ↔ l = [].
Proof.
  unfold sample1. split; [|by intros ->].
  destruct l as [|d l]; [done|].
  destruct ((d :: l) !! _) eqn:E; [done|]. intros _.
  apply lookup_ge_None in E.
  pose proof (Nat.mod_upper_bound r (length (d :: l))) as Hb.
  simpl in *. lia.
Qed.

Lemma sample_step e st X st' r :
  exec_op e (AggregateSample X) st = (st', r) →
  st' = st
  ∧ match r with
    | inr l =>
        l = aggregate_sample (bottles st) X (rnd e)
        ∧ ((l = [] ∧ filter (eligible X) (bottles st) = [])
           ∨ ∃ d, l = [d] ∧ d ∈ bottles st ∧ eligible X d)
    | inl _ => True
    end.
Proof.
  unfold exec_op. destruct (fault e); [by intros [= <- <-]|].
  intros [= <- <-]. split; [done|]. split; [done|].
  unfold aggregate_sample.
  destruct (sample1 (rnd e) (filter (eligible X) (bottles st))) as [|d l] eqn:E.
  - left. split; [done|]. by apply sample1_nil in E.
  - right. exists d. assert (d ∈ sample1 (rnd e) (filter (eligible X) (bottles st))) as Hd
      by (rewrite E; left).
    apply sample1_spec in Hd as [Hd Hin]. rewrite E in Hd.
    apply list_elem_of_filter in Hin as [? ?]. done.
Qed.

Lemma mark_step e st idv st' r :
  exec_op e (UpdateOneSetPicked idv) st = (st', r) →
  match r with
  | inr _ =>
      bottles st' = update_one_set_picked idv (bottles st)
      ∧ counters st' = counters st
  | inl _ => st' = st
  end.
Proof.
  unfold exec_op. destruct (fault e); by intros [= <- <-].
Qed.

(** What a validated document says about its fields. *)
Lemma from_mongo_dict_fields d out :
  from_mongo_dict d = Some out →
  d !! "bottle_id" = Some (VInt (bottle_id out))
  ∧ d !! "sender_id" = Some (VStr (sender_id out))
  ∧ d !! "picked" = Some (VBool (picked out)).
Proof.
  unfold from_mongo_dict, as_int, as_str, as_bool, as_images. intros H.
  repeat (case_match; simplify_option_eq; try done).
Qed.

(** A finished or failed coroutine makes no further call. *)
Lemma follows_Raise {A} ex tr i (q : Prog A) : follows (Raise ex) tr i q → q = Raise ex.
Proof. by destruct tr. Qed.

Lemma follows_Ret {A} (a : A) tr i (q : Prog A) : follows (Ret a) tr i q → q = Ret a.
Proof. by destruct tr. Qed.

(** Closes the branches where the coroutine has raised. *)
Ltac raised H :=
  cbn in H;
  repeat match type of H with
         | context [match ?ex with HTTPException _ _ => _ | _ => _ end] =>
             destruct ex; cbn in H
         end;
  apply follows_Raise in H; discriminate H.

(** A creation that answers a bottle was issued that bottle's id by its own
    call to the allocator. *)
Lemma add_follows now b tr i out :
  follows (serve (AddReq now b)) tr i (Ret (ReplyBottle out)) →
  (i, bottle_id out) ∈ issued_by "bottle_id" tr.
Proof.
  destruct tr as [|ev1 tr]; [done|]. cbn. intros (e & st & -> & H).
  destruct (exec_op e _ st) as [st' [ex|d]] eqn:E; cbn in H.
  { raised H. }
  apply alloc_step in E as (Hd & _). unfold subscript in H. rewrite Hd in H. cbn in H.
  destruct tr as [|ev2 tr]; [done|]. cbn in H. destruct H as (e2 & st2 & -> & H).
  destruct (exec_op e2 _ st2) as [st2' [ex|d2]] eqn:E2; cbn in H.
  { raised H. }
  apply insert_step in E2 as (-> & _).
  destruct (from_mongo_dict _) as [out'|] eqn:Ev; cbn in H.
  2:{ raised H. }
  apply follows_Ret in H. injection H as ->.
  apply from_mongo_dict_fields in Ev as (Hb & _).
  revert Hb. simplify_map_eq. intros [= <-].
  unfold issued_by. cbn. rewrite ?Hd. cbn. left.
Qed.

(** A claim that answers a bottle built it from a document its own
    sampling call found eligible in the store as it was at that call. *)
Lemma pick_follows X tr i out :
  follows (serve (PickReq X)) tr i (Ret (ReplyBottle out)) →
  ∃ st d, (i, X, st, [d]) ∈ omap sampled_ev tr
          ∧ d ∈ bottles st ∧ eligible X d ∧ from_mongo_dict d = Some out.
Proof.
  destruct tr as [|ev1 tr]; [done|]. cbn. intros (e & st & -> & H).
  destruct (exec_op e _ st) as [st' [ex|l]] eqn:E; cbn in H.
  { raised H. }
  apply sample_step in E as (-> & _ & [[-> _]|(d & -> & Hin & Hel)]); cbn in H.
  { raised H. }
  unfold subscript in H. destruct (d !! "_id") as [idv|] eqn:Hid; cbn in H.
  2:{ raised H. }
  destruct tr as [|ev2 tr]; [done|]. cbn in H. destruct H as (e2 & st2 & -> & H).
  destruct (exec_op e2 _ st2) as [st2' [ex|[]]] eqn:E2; cbn in H.
  { raised H. }
  destruct (from_mongo_dict d) as [out'|] eqn:Ev; cbn in H.
  2:{ raised H. }
  apply follows_Ret in H. injection H as ->.
  exists st, d. split; [|done]. cbn. left.
Qed.

(** * Specification properties *)

(** ** Identifier allocation under concurrency *)

Lemma issued_by_calls_of name i tr p :
  p ∈ issued_by name (calls_of i tr) → p ∈ issued_by name tr.
Proof.
  unfold issued_by, calls_of. rewrite !list_elem_of_omap.
  intros (ev & Hev & Hp). exists ev. split; [|done].
  by apply list_elem_of_filter in Hev as [_ ?].
Qed.

Lemma NoDup_snd_inj (l : list (nat * Z)) i j n :
  NoDup l.*2 → (i, n) ∈ l → (j, n) ∈ l → i = j.
Proof.
  induction l as [|[a m] l IH]; simpl; [by intros _ ?%elem_of_nil|].
  intros [Hm Hl]%NoDup_cons [Hi|Hi]%elem_of_cons [Hj|Hj]%elem_of_cons; simplify_eq; auto.
  - destruct Hm. apply list_elem_of_fmap. eexists; split; [|eassumption]; done.
  - destruct Hm. apply list_elem_of_fmap. eexists; split; [|eassumption]; done.
Qed.

Lemma StronglySorted_lt_NoDup (l : list Z) : StronglySorted Z.lt l → NoDup l.
Proof.
  induction 1 as [|x l _ IH Hx]; constructor; [|done].
  intros Hin. rewrite Forall_forall in Hx. apply Hx in Hin. lia.
Qed.

(** C1. Along any interleaving of any requests, started from any store,
    the ids the allocator issues from the sequence "bottle_id" increase
    strictly in issuance order; a creation request that answers a bottle
    answers the id issued to it; and two distinct creation requests never
    answer the same bottle id. *)
Theorem bottle_ids_distinct_and_increasing st reqs sched :
  let w := pool_run sched (boot st reqs) in
  StronglySorted Z.lt (issued "bottle_id" (trace w))
  ∧ (∀ i now b out,
       reqs !! i = Some (AddReq now b) →
       pool w !! i = Some (Ret (ReplyBottle out)) →
       (i, bottle_id out) ∈ issued_by "bottle_id" (trace w))
  ∧ (∀ i j now_i b_i now_j b_j out_i out_j,
       i ≠ j →
       reqs !! i = Some (AddReq now_i b_i) →
       reqs !! j = Some (AddReq now_j b_j) →
       pool w !! i = Some (Ret (ReplyBottle out_i)) →
       pool w !! j = Some (Ret (ReplyBottle out_j)) →
       bottle_id out_i ≠ bottle_id out_j).
Proof.
  intros w.
  assert (Hsorted : StronglySorted Z.lt (issued "bottle_id" (trace w))).
  { destruct (pool_run_issued "bottle_id" sched (boot st reqs)) as (new & Ht & Hs & _).
    subst w. rewrite Ht. done. }
  assert (Hissued : ∀ i now b out,
             reqs !! i = Some (AddReq now b) →
             pool w !! i = Some (Ret (ReplyBottle out)) →
             (i, bottle_id out) ∈ issued_by "bottle_id" (trace w)).
  { intros i now b out Hreq Hout.
    destruct (pool_run_follows sched (boot st reqs) i (serve (AddReq now b)))
      as (new & q & Ht & Hq & Hf).
    { simpl. by rewrite list_lookup_fmap, Hreq. }
    subst w. rewrite Ht. simpl. rewrite Hout in Hq. injection Hq as <-.
    eapply issued_by_calls_of, add_follows, Hf. }
  split; [done|]. split; [done|].
  intros i j now_i b_i now_j b_j out_i out_j Hne Hi Hj Hoi Hoj Heq.
  apply Hne. eapply NoDup_snd_inj.
  - apply StronglySorted_lt_NoDup, Hsorted.
  - eapply Hissued; eauto.
  - rewrite Heq. eapply Hissued; eauto.
Qed.

Lemma bottle_ids_distinct_and_increasing_witness :
  ∃ out_a out_b,
    pool (pool_run overlapped (boot empty_store two_creations))
    = [Ret (ReplyBottle out_a); Ret (ReplyBottle out_b)]
    ∧ bottle_id out_a ≠ bottle_id out_b.
Proof.
  eexists _, _. split; [vm_compute; reflexivity|].
  apply (proj2 (proj2 (bottle_ids_distinct_and_increasing empty_store two_creations overlapped))
           0%nat 1%nat "2024-05-01 10:00:00" bottle_a "2024-05-01 10:00:00" bottle_b);
    [lia|reflexivity|reflexivity|vm_compute; reflexivity|vm_compute; reflexivity].
Defined.

(** ** The sequence allocator *)

Lemma alloc_total e st name :
  fault e = false → counter_ok st name →
  ∃ st' d, exec_op e (FindOneAndUpdateInc name) st = (st', inr d)
           ∧ (counters st !! name = None →
              d = dict_update ∅ [("_id", VStr name); ("seq", VInt 1)]).
Proof.
  intros Hf Hok. unfold exec_op, find_one_and_update_inc. rewrite Hf.
  destruct (counters st !! name) as [d0|] eqn:E; [|by eauto].
  unfold inc_seq. destruct (d0 !! "seq") as [v|] eqn:Ev.
  - destruct (Hok _ _ E Ev) as [n ->]. eexists _, _. by split.
  - eexists _, _. by split.
Qed.

(** C3. The allocator makes exactly one store call, the upserting
    increment; whenever it returns, it returns the counter's previous
    value plus one and leaves that value in the counter; on a healthy store
    whose counter can be incremented it does return, and when no counter
    document existed the document created by that same call holds 1, which
    is the value returned. *)
Theorem get_next_sequence_value_post_increment name es st :
  let n := default 0 (seq_of st name) + 1 in
  (∃ k, get_next_sequence_value name = Await (FindOneAndUpdateInc name) k
        ∧ ∀ r, match k r with Await _ _ => False | _ => True end)
  ∧ (∀ st' v,
       run (get_next_sequence_value name) es st = (st', inr v) →
       v = VInt n ∧ seq_of st' name = Some n
       ∧ (∀ c, seq_of st name = Some c → v = VInt (c + 1)))
  ∧ (fault (es 0%nat) = false → counter_ok st name →
     ∃ st',
       run (get_next_sequence_value name) es st = (st', inr (VInt n))
       ∧ bottles st' = bottles st
       ∧ (∀ name', name' ≠ name → counters st' !! name' = counters st !! name')
       ∧ (counters st !! name = None →
          n = 1
          ∧ counters st' !! name
            = Some (dict_update ∅ [("_id", VStr name); ("seq", VInt 1)]))).
Proof.
  intros n. split; [|split].
  - eexists. split; [reflexivity|]. intros [ex|d]; cbn; [done|].
    unfold subscript. by destruct (d !! "seq").
  - intros st' v. cbn.
    destruct (exec_op (es 0%nat) _ st) as [st1 [ex|d]] eqn:E; cbn; [done|].
    pose proof (seq_of_alloc _ _ _ _ _ E) as Hs.
    apply alloc_step in E as (Hd & _).
    unfold subscript. rewrite Hd. cbn. intros [= <- <-].
    split; [done|]. split; [done|]. intros c Hc. subst n. by rewrite Hc.
  - intros Hf Hok.
    destruct (alloc_total _ _ _ Hf Hok) as (st' & d & E & Hnew).
    exists st'. cbn. rewrite E. cbn.
    pose proof (alloc_step _ _ _ _ _ E) as (Hd & Hc & Hb).
    unfold subscript. rewrite Hd. cbn. split; [done|]. split; [done|]. split.
    + intros name' Hne. by rewrite Hc, lookup_insert_ne.
    + intros Hnone. split.
      * subst n. unfold seq_of. by rewrite Hnone.
      * rewrite Hc, lookup_insert_eq. by rewrite (Hnew Hnone).
Qed.

Lemma get_next_sequence_value_post_increment_witness :
  ∃ st',
    run (get_next_sequence_value "bottle_id") healthy empty_store = (st', inr (VInt 1))
    ∧ counters st' !! "bottle_id"
      = Some (dict_update ∅ [("_id", VStr "bottle_id"); ("seq", VInt 1)]).
Proof.
  destruct (proj2 (proj2 (get_next_sequence_value_post_increment
                            "bottle_id" healthy empty_store)))
    as (st' & Hrun & _ & _ & Hnew); [reflexivity|intros d v; vm_compute; discriminate|].
  exists st'. split; [exact Hrun|]. apply Hnew. reflexivity.
Defined.

(** ** A claim with nothing eligible *)

(** With nothing eligible the handler raises and the store is untouched. *)
Lemma pick_raises_when_none_eligible X es st :
  filter (eligible X) (bottles st) = [] →
  run (pick_random_bottle X) es st
  = (st,
     inl (if fault (es 0%nat)
          then HTTPException HTTP_500_INTERNAL_SERVER_ERROR
                 ("Internal server error while picking bottle: "
                  ++ errmsg (es 0%nat))
          else HTTPException HTTP_404_NOT_FOUND "No available bottles to pick.")).
Proof.
  intros Hnone. cbn. unfold exec_op, aggregate_sample. rewrite Hnone.
  destruct (fault (es 0%nat)); cbn; done.
Qed.

(** C5. When no record is eligible for the requester, the claim request
    raises an HTTP exception, never answers a record, and leaves the store
    exactly as it was.  On a healthy store the exception is the 404
    "No available bottles to pick."; it is raised as soon as the sampling call
    has answered, so the request makes no update call at all.  The only
    other outcome is the 500 of a store that fails the sampling call. *)
Theorem pick_nothing_eligible X es st :
  filter (eligible X) (bottles st) = [] →
  let ex :=
    if fault (es 0%nat)
    then HTTPException HTTP_500_INTERNAL_SERVER_ERROR
           ("Internal server error while picking bottle: " ++ errmsg (es 0%nat))
    else HTTPException HTTP_404_NOT_FOUND "No available bottles to pick." in
  run (pick_random_bottle X) es st = (st, inl ex)
  ∧ resume (es 0%nat) st (pick_random_bottle X) = (st, Raise ex)
  ∧ (fault (es 0%nat) = false →
     status (respond HTTP_200_OK BottleOut_dict (run (pick_random_bottle X) es st).2)
     = HTTP_404_NOT_FOUND).
Proof.
  intros Hnone. cbn. unfold exec_op, aggregate_sample. rewrite Hnone.
  destruct (fault (es 0%nat)); cbn; done.
Qed.

Lemma pick_nothing_eligible_witness :
  run (pick_random_bottle "u1") healthy only_own
  = (only_own, inl (HTTPException 404 "No available bottles to pick.")).
Proof.
  apply (pick_nothing_eligible "u1" healthy only_own). vm_compute. reflexivity.
Defined.

(** ** The mark step of a claim *)

(** The mark, read as: find the first document with the given identity and
    set its flag. *)
Lemma update_one_set_picked_find idv bs :
  update_one_set_picked idv bs
  = match list_find (fun d : Doc => d !! "_id" = Some idv) bs with
    | Some (k, d2) => <[k := <["picked" := VBool true]> d2]> bs
    | None => bs
    end.
Proof.
  induction bs as [|d bs IH]; [done|]. simpl. unfold has_id.
  case_bool_decide as Hd.
  - by rewrite decide_True.
  - rewrite decide_False by done. rewrite IH.
    destruct (list_find _ bs) as [[k d2]|]; done.
Qed.

Lemma exec_sample_ok e st X :
  fault e = false →
  exec_op e (AggregateSample X) st = (st, inr (aggregate_sample (bottles st) X (rnd e))).
Proof. intros H. unfold exec_op. by rewrite H. Qed.

Lemma exec_mark_ok e st idv :
  fault e = false →
  exec_op e (UpdateOneSetPicked idv) st
  = (mkStore (counters st) (update_one_set_picked idv (bottles st)), inr tt).
Proof. intros H. unfold exec_op. by rewrite H. Qed.

(** C6. Once a claim request has sampled a document, its next call marks
    the record that carries the document's [_id], and nothing else decides
    which: whatever the store has become by then, the call sets the flag of
    the first record with that [_id] to true and the request answers the
    sampled document as a successful claim.  In particular, when that
    record is already claimed the store is left unchanged and the request
    still answers the document. *)
Theorem mark_is_unconditional X e1 st1 d idv out e2 st2 :
  fault e1 = false →
  aggregate_sample (bottles st1) X (rnd e1) = [d] →
  d !! "_id" = Some idv →
  from_mongo_dict d = Some out →
  fault e2 = false →
  let p1 := (resume e1 st1 (pick_random_bottle X)).2 in
  (∃ k, p1 = Await (UpdateOneSetPicked idv) k)
  ∧ resume e2 st2 p1
    = (mkStore (counters st2) (update_one_set_picked idv (bottles st2)), Ret out)
  ∧ (∀ k d2,
       list_find (fun d : Doc => d !! "_id" = Some idv) (bottles st2) = Some (k, d2) →
       update_one_set_picked idv (bottles st2)
       = <[k := <["picked" := VBool true]> d2]> (bottles st2))
  ∧ (∀ k d2,
       list_find (fun d : Doc => d !! "_id" = Some idv) (bottles st2) = Some (k, d2) →
       d2 !! "picked" = Some (VBool true) →
       resume e2 st2 p1 = (st2, Ret out)).
Proof.
  intros Hf1 Hs Hid Hv Hf2. cbn.
  rewrite (exec_sample_ok e1 st1 X Hf1), Hs. cbn.
  unfold subscript. rewrite Hid. cbn.
  rewrite (exec_mark_ok e2 st2 idv Hf2), Hv. cbn.
  split; [by eexists|]. split; [done|]. split.
  - intros k d2 Hfind. by rewrite update_one_set_picked_find, Hfind.
  - intros k d2 Hfind Hp. rewrite update_one_set_picked_find, Hfind.
    apply list_find_Some in Hfind as (Hk & _ & _).
    rewrite (insert_id d2), list_insert_id by done. by destruct st2.
Qed.

Lemma mark_is_unconditional_witness :
  resume (healthy 1) claimed_once
    (resume (healthy 0) only_own (pick_random_bottle "u2")).2
  = (claimed_once, Ret out_a).
Proof.
  apply (proj2 (proj2 (proj2
           (mark_is_unconditional "u2" (healthy 0) only_own doc_a (VOid 1%N) out_a
              (healthy 1) claimed_once
              eq_refl ltac:(vm_compute; reflexivity) ltac:(vm_compute; reflexivity)
              ltac:(vm_compute; reflexivity) eq_refl))) 0%nat
           (<["picked" := VBool true]> doc_a));
    vm_compute; reflexivity.
Defined.

(** The race the unconditional mark leaves open: two requesters sample the
    same bottle before either marks it, and both are answered that bottle. *)
Example double_claim :
  pool (pool_run both_sample_first (boot only_own two_claims))
  = [Ret (ReplyBottle out_a); Ret (ReplyBottle out_a)].
Proof. vm_compute. reflexivity. Qed.

(** ** The count query *)

Lemma filter_ext_in {A} (P1 P2 : A → Prop)
    `{!∀ x, Decision (P1 x), !∀ x, Decision (P2 x)} (l : list A) :
  (∀ x, x ∈ l → P1 x ↔ P2 x) → filter P1 l = filter P2 l.
Proof.
  induction l as [|a l IH]; [done|]. intros HP.
  assert (filter P1 l = filter P2 l) as Hl.
  { apply IH. intros x Hx. apply HP. by right. }
  destruct (decide (P1 a)) as [Ha|Ha].
  - rewrite !filter_cons_True; [by rewrite Hl| |done]. apply HP; [left|done].
  - rewrite !filter_cons_False; [done| |done]. intros Hb. apply Ha, HP; [left|done].
Qed.

(** Counting the unclaimed documents counts the unclaimed positions. *)
Lemma unclaimed_positions cs bs :
  length (filter (unclaimed_at (mkStore cs bs)) (seq 0 (length bs)))
  = length (filter unclaimed bs).
Proof.
  induction bs as [|d l IH] using rev_ind; [done|].
  rewrite length_app, seq_app, !filter_app, !length_app. simpl. f_equal.
  - rewrite <- IH. f_equal. apply filter_ext_in. intros k Hk.
    apply elem_of_seq in Hk. unfold unclaimed_at. simpl.
    rewrite lookup_app_l by lia. done.
  - assert (unclaimed_at (mkStore cs (l ++ [d])) (length l) ↔ unclaimed d) as Hd.
    { unfold unclaimed_at. simpl. rewrite lookup_app_r by lia.
      by rewrite Nat.sub_diag. }
    destruct (decide (unclaimed d)) as [Hu|Hu].
    + rewrite !filter_cons_True; [done|done|]. by apply Hd.
    + rewrite !filter_cons_False; [done|done|]. by rewrite Hd.
Qed.

Lemma size_unclaimed_records st :
  Z.of_nat (size (unclaimed_records st)) = count_documents (bottles st).
Proof.
  unfold unclaimed_records, count_documents.
  rewrite size_list_to_set by apply NoDup_filter, NoDup_seq.
  destruct st as [cs bs]. simpl. by rewrite unclaimed_positions.
Qed.

Lemma exec_count_ok e st :
  fault e = false →
  exec_op e CountDocuments st = (st, inr (count_documents (bottles st))).
Proof. intros H. unfold exec_op. by rewrite H. Qed.

(** C7. On a healthy store the count request answers the number of
    records whose [picked] field is false at the call, and changes nothing.
    The set counted is exactly the set of such records, whoever sent them:
    it is the records eligible for any given requester together with that
    requester's own unclaimed ones; claimed records are not in it. *)
Theorem count_is_unclaimed_cardinality es st :
  fault (es 0%nat) = false →
  run get_active_bottle_counts es st
  = (st, inr (mkBottleCountOut (Z.of_nat (size (unclaimed_records st)))))
  ∧ (∀ k, k ∈ unclaimed_records st
          ↔ ∃ d, bottles st !! k = Some d ∧ d !! "picked" = Some (VBool false))
  ∧ (∀ X,
       size (unclaimed_records st)
       = (length (filter (eligible X) (bottles st))
          + length (filter (fun d : Doc => unclaimed d
                                           ∧ d !! "sender_id" = Some (VStr X))
                           (bottles st)))%nat).
Proof.
  intros Hf. split; [|split].
  - cbn. rewrite (exec_count_ok _ _ Hf). cbn. by rewrite size_unclaimed_records.
  - intros k. unfold unclaimed_records.
    rewrite elem_of_list_to_set, list_elem_of_filter, elem_of_seq.
    unfold unclaimed_at, unclaimed. split.
    + intros [H _]. destruct (bottles st !! k) as [d|]; [eauto|done].
    + intros (d & Hk & Hd). rewrite Hk. split; [done|].
      apply lookup_lt_Some in Hk. lia.
  - intros X. apply Nat2Z.inj. rewrite size_unclaimed_records.
    unfold count_documents. f_equal.
    induction (bottles st) as [|d l IH]; [done|].
    rewrite !filter_cons. unfold eligible, unclaimed in *.
    destruct (decide (d !! "picked" = Some (VBool false))) as [Hp|Hp],
             (decide (d !! "sender_id" = Some (VStr X))) as [Hs|Hs].
    + rewrite decide_False, decide_True by tauto. simpl. lia.
    + rewrite decide_True, decide_False by tauto. simpl. lia.
    + rewrite !decide_False by tauto. done.
    + rewrite !decide_False by tauto. done.
Qed.

Lemma count_is_unclaimed_cardinality_witness :
  run get_active_bottle_counts healthy only_own
  = (only_own, inr (mkBottleCountOut 1)).
Proof.
  rewrite (proj1 (count_is_unclaimed_cardinality healthy only_own eq_refl)).
  vm_compute. reflexivity.
Defined.

(** ** Startup settings *)

Lemma getitem_absent env empty_msg name :
  truthy name = false → ∃ ex, getitem env empty_msg name = inl ex.
Proof.
  unfold truthy, getitem. destruct name as [s|]; [|eauto].
  destruct (String.eqb s ""); [eauto|done].
Qed.

Lemma getitem_present env empty_msg name s :
  getitem env empty_msg name = inr s → name = Some s ∧ truthy name = true.
Proof.
  unfold truthy, getitem. destruct name as [s'|]; [|done].
  destruct (String.eqb s' ""); [done|].
  destruct (name_error env s'); [done|]. by intros [= ->].
Qed.

(** C8. The process serves only when all three settings are present and
    not empty, and the absence of any one ends the start with an error: a
    missing connection string or database name makes the import of the
    module raise its [ValueError]; a missing collection name, which the
    module does not test, makes the driver refuse the name when the startup
    hook builds the collection handle, and the hook raises the 500, so the
    application does not start.  With the three settings present and a
    driver that accepts them and answers the ping, the service is up. *)
Theorem missing_setting_is_fatal env uri dbname coll :
  (∀ g, process_start env uri dbname coll = Serving g →
        truthy uri = true ∧ truthy dbname = true ∧ truthy coll = true)
  ∧ (truthy uri = false →
     ∃ msg, process_start env uri dbname coll = LoadFailed msg)
  ∧ (truthy dbname = false →
     ∃ msg, process_start env uri dbname coll = LoadFailed msg)
  ∧ (truthy uri = true → truthy dbname = true → truthy coll = false →
     ∃ detail,
       process_start env uri dbname coll
       = StartupFailed (HTTPException HTTP_500_INTERNAL_SERVER_ERROR detail))
  ∧ (∀ u d c,
       uri = Some u → dbname = Some d → coll = Some c →
       truthy uri = true → truthy dbname = true → truthy coll = true →
       client_error env = None → name_error env d = None → name_error env c = None →
       ping_error env = None →
       process_start env uri dbname coll
       = Serving (mkGlobals (Some uri) (Some d) (Some c))).
Proof.
  unfold process_start, module_init, startup_db_client, connect.
  split; [|split; [|split; [|split]]].
  - intros g. destruct (truthy uri) eqn:Hu; simpl; [|done].
    destruct (truthy dbname) eqn:Hd; simpl; [|done].
    destruct (client_error env); simpl; [done|].
    destruct (getitem env _ dbname) as [ex|d]; simpl; [done|].
    destruct (getitem env _ coll) as [ex|c] eqn:Hc; simpl; [done|].
    by apply getitem_present in Hc as [_ ->].
  - intros ->. simpl. eauto.
  - intros ->. destruct (truthy uri); simpl; eauto.
  - intros -> -> Hc. simpl.
    destruct (client_error env); simpl; [eauto|].
    destruct (getitem env _ dbname) as [ex|d]; simpl; [eauto|].
    destruct (getitem_absent env "collection names cannot be empty" coll Hc) as [ex ->].
    simpl. eauto.
  - intros u d c -> -> -> Hu Hd Hc He Hnd Hnc Hp. rewrite Hu, Hd. simpl.
    rewrite He. simpl. unfold truthy in Hd, Hc. unfold getitem.
    destruct (String.eqb d ""); [done|]. destruct (String.eqb c ""); [done|].
    rewrite Hnd, Hnc, Hp. done.
Qed.

Lemma missing_setting_is_fatal_witness :
  ∃ detail,
    process_start driver_ok (Some "mongodb://localhost:27017") (Some "driftbottles") None
    = StartupFailed (HTTPException 500 detail).
Proof.
  apply (proj1 (proj2 (proj2 (proj2
           (missing_setting_is_fatal driver_ok (Some "mongodb://localhost:27017")
              (Some "driftbottles") None)))));
    reflexivity.
Defined.

(** ** An insert that fails after the allocation *)

Lemma exec_insert_fails e st document :
  document !! "_id" = None →
  fault e = true ∨ existsb (has_id (VOid (fresh e))) (bottles st) = true →
  exec_op e (InsertOne document) st = (st, inl (PyMongoError (errmsg e))).
Proof.
  intros Hid [Hf|Hc]; [by apply exec_op_fault|].
  unfold exec_op, insert_one. rewrite Hid. simpl. rewrite Hc. by destruct (fault e).
Qed.

(** C9. When the allocation succeeds and the insert then fails, the
    creation request raises the 500 storage failure, the bottle collection
    is what it was, the counter keeps the value just issued, and every id
    issued afterwards, by whatever requests in whatever interleaving, is
    greater: the issued id is never given out again. *)
Theorem failed_insert_skips_id now b es st :
  fault (es 0%nat) = false →
  counter_ok st "bottle_id" →
  fault (es 1%nat) = true
  ∨ existsb (has_id (VOid (fresh (es 1%nat)))) (bottles st) = true →
  let n := default 0 (seq_of st "bottle_id") + 1 in
  ∃ st',
    run (add_bottle now b) es st
    = (st', inl (HTTPException HTTP_500_INTERNAL_SERVER_ERROR
                   ("Internal server error while adding bottle: "
                    ++ errmsg (es 1%nat))))
    ∧ bottles st' = bottles st
    ∧ seq_of st' "bottle_id" = Some n
    ∧ ∀ pool sched,
        Forall (fun m => n < m)
               (issued "bottle_id" (trace (pool_run sched (mkWorld st' pool [])))).
Proof.
  intros Hf Hok Hfail n.
  destruct (alloc_total _ _ _ Hf Hok) as (st' & d & E & _).
  pose proof (seq_of_alloc _ _ _ _ _ E) as Hs.
  pose proof (alloc_step _ _ _ _ _ E) as (Hd & _ & Hb).
  exists st'. split; [|split; [done|split; [done|]]].
  - cbn. rewrite E. cbn. unfold subscript. rewrite Hd. cbn.
    rewrite exec_insert_fails; [done|done|by rewrite Hb].
  - intros pool sched.
    destruct (pool_run_issued "bottle_id" sched (mkWorld st' pool []))
      as (new & -> & _ & Hall & _).
    simpl in *. by rewrite Hs in Hall.
Qed.

Lemma failed_insert_skips_id_witness :
  ∃ st',
    run (add_bottle "2024-05-01 10:00:00" bottle_a) insert_fails empty_store
    = (st', inl (HTTPException 500
                   "Internal server error while adding bottle: connection closed"))
    ∧ bottles st' = []
    ∧ seq_of st' "bottle_id" = Some 1.
Proof.
  destruct (failed_insert_skips_id "2024-05-01 10:00:00" bottle_a insert_fails empty_store)
    as (st' & Hrun & Hb & Hs & _);
    [reflexivity|intros d v; vm_compute; discriminate|left; reflexivity|].
  exists st'. split; [exact Hrun|]. split; [exact Hb|exact Hs].
Defined.

(** ** Response bodies *)





Lemma from_mongo_dict_insert_other d key v :
  key ∉ declared_fields →
  from_mongo_dict (<[key := v]> d) = from_mongo_dict d.
Proof.
  intros Hk. unfold from_mongo_dict.
  assert (∀ f, f ∈ declared_fields → <[key := v]> d !! f = d !! f) as Hf.
  { intros f Hin. apply lookup_insert_ne. by intros ->. }
  rewrite !Hf; [done|..]; unfold declared_fields; rewrite elem_of_list_to_set;
    apply list_elem_of_In; simpl; tauto.
Qed.








(** ** What a claim can answer *)

(** A run only adds calls to the trace. *)
Lemma pool_run_trace sched w :
  ∃ new, trace (pool_run sched w) = (trace w ++ new)%list.
Proof.
  destruct (pool_run_issued "bottle_id" sched w) as (new & Ht & _). eauto.
Qed.

(** Every call recorded in a trace met the store that the schedule had
    produced up to that call. *)
Lemma pool_run_snapshots sched : ∀ w new,
  trace (pool_run sched w) = (trace w ++ new)%list →
  ∀ tid st B (op : StoreOp B) r,
    Called tid st op r ∈ new →
    ∃ s1 c s2, sched = (s1 ++ c :: s2)%list ∧ c.1 = tid
               ∧ st = store (pool_run s1 w).
Proof.
  induction sched as [|c s IH]; intros w new Ht tid st B op r Hin; simpl in Ht.
  { rewrite <- (app_nil_r (trace w)) in Ht at 1. apply app_inv_head in Ht.
    subst. by apply elem_of_nil in Hin. }
  destruct (pool_step_cases w c) as [Hw|(B' & op' & k & Hc & Hw)].
  - rewrite Hw in Ht. destruct (IH _ _ Ht _ _ _ _ _ Hin) as (s1 & c' & s2 & -> & ? & ->).
    exists (c :: s1), c', s2. simpl. by rewrite Hw.
  - destruct (pool_run_trace s (pool_step w c)) as (new1 & Ht1).
    rewrite Ht1 in Ht. rewrite Hw in Ht at 1. simpl in Ht.
    rewrite <- app_assoc in Ht. apply app_inv_head in Ht. subst new.
    apply elem_of_cons in Hin as [Hev|Hin].
    + exists [], c, s. split; [done|]. by injection Hev as -> ->.
    + destruct (IH _ _ Ht1 _ _ _ _ _ Hin) as (s1 & c' & s2 & -> & ? & ->).
      exists (c :: s1), c', s2. done.
Qed.

Lemma sampled_ev_Some ev tid X st l :
  sampled_ev ev = Some (tid, X, st, l) →
  ev = Called tid st (AggregateSample X) (inr l).
Proof.
  destruct ev as [tid' st' B op [ex|r]]; destruct op; simpl; try done.
  by intros [= -> -> -> ->].
Qed.

Lemma nothing_eligible X bs :
  (∀ d, d ∈ bs → unclaimed d → d !! "sender_id" = Some (VStr X)) →
  filter (eligible X) bs = [].
Proof.
  intros Hown. destruct (filter (eligible X) bs) as [|d l] eqn:E; [done|].
  assert (d ∈ filter (eligible X) bs) as Hd by (rewrite E; left).
  apply list_elem_of_filter in Hd as [[Hp Hs] Hin]. destruct Hs. by apply Hown.
Qed.

(** C2. In any interleaving of any requests from any store, a claim request
    of requester [X] that answers a bottle answers a document that its own
    sampling call found in the store as the store was at that call, with
    [picked] false and a [sender_id] other than [X]; so the bottle answered
    is never one of [X]'s own and is answered as unclaimed.  When every
    unclaimed record is [X]'s own, a claim on a healthy store raises the 404
    and changes nothing. *)
Theorem claim_respects_filter X :
  (∀ st reqs sched i out,
     let w := pool_run sched (boot st reqs) in
     reqs !! i = Some (PickReq X) →
     pool w !! i = Some (Ret (ReplyBottle out)) →
     sender_id out ≠ X
     ∧ picked out = false
     ∧ ∃ s1 e s2 d,
         sched = (s1 ++ (i, e) :: s2)%list
         ∧ d ∈ bottles (store (pool_run s1 (boot st reqs)))
         ∧ eligible X d
         ∧ from_mongo_dict d = Some out)
  ∧ (∀ st es,
       fault (es 0%nat) = false →
       (∀ d, d ∈ bottles st → unclaimed d → d !! "sender_id" = Some (VStr X)) →
       run (pick_random_bottle X) es st
       = (st, inl (HTTPException HTTP_404_NOT_FOUND "No available bottles to pick."))).
Proof.
  split.
  - intros st reqs sched i out w Hreq Hout.
    destruct (pool_run_follows sched (boot st reqs) i (serve (PickReq X)))
      as (new & q & Ht & Hq & Hf).
    { simpl. by rewrite list_lookup_fmap, Hreq. }
    fold w in Ht, Hq. rewrite Hout in Hq. injection Hq as <-.
    apply pick_follows in Hf as (st_s & d & Hs & Hin & Hel & Hv).
    pose proof (from_mongo_dict_fields _ _ Hv) as (_ & Hsid & Hp).
    destruct Hel as [Hpf Hne]. rewrite Hp in Hpf. rewrite Hsid in Hne.
    split; [congruence|]. split; [congruence|].
    apply list_elem_of_omap in Hs as (ev & Hev & Hs).
    apply sampled_ev_Some in Hs as ->.
    apply list_elem_of_filter in Hev as [_ Hev].
    destruct (pool_run_snapshots sched (boot st reqs) new Ht _ _ _ _ _ Hev)
      as (s1 & [i' e] & s2 & -> & Hi & ->). simpl in Hi. subst i'.
    exists s1, e, s2, d. repeat split; try done; congruence.
  - intros st es Hf Hown.
    pose proof (pick_raises_when_none_eligible X es st (nothing_eligible X _ Hown)) as H.
    by rewrite Hf in H.
Qed.

Lemma claim_respects_filter_witness :
  pool (pool_run one_claim (boot two_bottles [PickReq "u1"])) = [Ret (ReplyBottle out_b)]
  ∧ sender_id out_b ≠ "u1"
  ∧ run (pick_random_bottle "u1") healthy only_own
    = (only_own, inl (HTTPException 404 "No available bottles to pick.")).
Proof.
  split; [vm_compute; reflexivity|]. split.
  - apply (proj1 (claim_respects_filter "u1") two_bottles [PickReq "u1"] one_claim
             0%nat out_b eq_refl).
    vm_compute. reflexivity.
  - apply (proj2 (claim_respects_filter "u1") only_own healthy eq_refl).
    intros d Hd. apply list_elem_of_In in Hd. vm_compute in Hd.
    destruct Hd as [<-|[]]. intros _. vm_compute. reflexivity.
Defined.

(** ** Claimed records *)

Lemma update_one_set_picked_lookup idv bs k d :
  bs !! k = Some d → d !! "picked" = Some (VBool true) →
  update_one_set_picked idv bs !! k = Some d.
Proof.
  intros Hk Hp. rewrite update_one_set_picked_find.
  destruct (list_find _ bs) as [[k' d2]|] eqn:E; [|done].
  apply list_find_Some in E as (Hk' & _ & _).
  destruct (decide (k' = k)) as [->|Hne].
  - assert (d2 = d) as -> by congruence.
    rewrite (insert_id d) by done. by rewrite list_insert_id.
  - by rewrite list_lookup_insert_ne.
Qed.

(** A claimed record is left as it is by every store call. *)
Lemma exec_op_claimed_stays {B} e (op : StoreOp B) st k d :
  bottles st !! k = Some d → d !! "picked" = Some (VBool true) →
  bottles (exec_op e op st).1 !! k = Some d.
Proof.
  intros Hk Hp. unfold exec_op. destruct (fault e); [done|].
  destruct op; simpl; try done.
  - by destruct (find_one_and_update_inc _ _) as [[]|].
  - unfold insert_one. destruct (existsb _ _); simpl; [done|].
    by apply lookup_app_l_Some.
  - by apply update_one_set_picked_lookup.
Qed.

Lemma update_one_set_picked_elem idv bs d :
  d ∈ update_one_set_picked idv bs →
  d ∈ bs ∨ ∃ d2, d2 ∈ bs ∧ d = <["picked" := VBool true]> d2.
Proof.
  induction bs as [|d0 bs IH]; simpl; [by left|].
  destruct (has_id idv d0).
  - intros [->|Hd]%elem_of_cons.
    + right. exists d0. split; [left|done].
    + left. by right.
  - intros [->|Hd]%elem_of_cons; [left; left|].
    destruct (IH Hd) as [?|(d2 & ? & ->)]; [left; by right|].
    right. exists d2. split; [by right|done].
Qed.

Lemma update_one_set_picked_keeps idv bs d :
  d ∈ bs → ∃ d', d' ∈ update_one_set_picked idv bs ∧ d' !! "_id" = d !! "_id".
Proof.
  induction bs as [|d0 bs IH]; simpl; [by intros ?%elem_of_nil|].
  intros [->|Hd]%elem_of_cons.
  - destruct (has_id idv d0).
    + eexists. split; [left|]. by rewrite lookup_insert_ne.
    + exists d0. split; [left|done].
  - destruct (has_id idv d0).
    + exists d. split; [by right|done].
    + destruct (IH Hd) as (d' & ? & ?). exists d'. split; [by right|done].
Qed.

Lemma existsb_has_id idv bs d :
  d ∈ bs → d !! "_id" = Some idv → existsb (has_id idv) bs = true.
Proof.
  intros Hin Hid. apply existsb_exists. exists d. split; [by apply list_elem_of_In|].
  unfold has_id. by apply bool_decide_eq_true.
Qed.

(** Once every record of an identity is claimed, every store call keeps it
    so, and a sampling call answers none of them. *)
Lemma exec_op_settled {B} idv tid e (op : StoreOp B) st :
  settled idv (bottles st) →
  settled idv (bottles (exec_op e op st).1)
  ∧ ∀ i X st0 l,
      sampled_ev (Called tid st op (exec_op e op st).2) = Some (i, X, st0, l) →
      ∀ d, d ∈ l → d !! "_id" ≠ Some idv.
Proof.
  intros Hs. pose proof Hs as [(d0 & Hin0 & Hid0) Hall]. unfold exec_op.
  destruct (fault e); [destruct op; (split; [exact Hs|done])|].
  destruct op; simpl.
  - destruct (find_one_and_update_inc _ _) as [[]|]; (split; [exact Hs|done]).
  - unfold insert_one. destruct (existsb _ _) eqn:E; simpl; [done|].
    split; [|done]. split.
    + exists d0. split; [|done]. apply elem_of_app. by left.
    + intros d [Hd| ->%list_elem_of_singleton]%elem_of_app; [by apply Hall|].
      rewrite lookup_insert_eq. intros [= Heq]. rewrite Heq in E.
      by rewrite (existsb_has_id _ _ _ Hin0 Hid0) in E.
  - split; [done|]. intros i X st0 l [= <- <- <- <-] d Hd Hid.
    unfold aggregate_sample in Hd. apply sample1_spec in Hd as [_ Hd].
    apply list_elem_of_filter in Hd as [[Hp _] Hd].
    by rewrite (Hall d Hd Hid) in Hp.
  - split; [|done]. split.
    + destruct (update_one_set_picked_keeps _id _ _ Hin0) as (d' & ? & Hd').
      exists d'. split; [done|]. by rewrite Hd'.
    + intros d Hd Hid.
      apply update_one_set_picked_elem in Hd as [Hd|(d2 & Hd & ->)]; [by apply Hall|].
      by rewrite lookup_insert_eq.
  - done.
Qed.

Lemma pool_run_settled idv sched : ∀ w,
  settled idv (bottles (store w)) →
  ∃ new, trace (pool_run sched w) = (trace w ++ new)%list
         ∧ settled idv (bottles (store (pool_run sched w)))
         ∧ ∀ i X st0 l, (i, X, st0, l) ∈ omap sampled_ev new →
                        ∀ d, d ∈ l → d !! "_id" ≠ Some idv.
Proof.
  induction sched as [|c s IH]; intros w Hw; simpl.
  { exists []. rewrite app_nil_r. split; [done|]. split; [done|].
    intros ???? H. by apply elem_of_nil in H. }
  destruct (pool_step_cases w c) as [->|(B & op & k & Hc & ->)]; [by apply IH|].
  destruct (exec_op_settled idv c.1 c.2 op (store w) Hw) as [Hs Hev].
  edestruct (IH (mkWorld (exec_op c.2 op (store w)).1
                   (<[c.1 := k (exec_op c.2 op (store w)).2]> (pool w))
                   (trace w ++ [Called c.1 (store w) op (exec_op c.2 op (store w)).2])))
    as (new & Ht & Hs' & Hnew); [done|].
  eexists (_ :: new). split; [rewrite Ht; simpl; by rewrite <- app_assoc|].
  split; [done|]. intros i X st0 l Hin.
  apply list_elem_of_omap in Hin as (ev & Hin & Hsam).
  apply elem_of_cons in Hin as [->|Hin].
  - by eapply Hev.
  - eapply Hnew, list_elem_of_omap; eauto.
Qed.

Lemma pool_run_claimed_stays sched : ∀ w k d,
  bottles (store w) !! k = Some d → d !! "picked" = Some (VBool true) →
  bottles (store (pool_run sched w)) !! k = Some d.
Proof.
  induction sched as [|c s IH]; intros w k d Hk Hp; simpl; [done|].
  destruct (pool_step_cases w c) as [->|(B & op & k0 & Hc & ->)]; [by apply IH|].
  apply IH; [|done]. simpl. by apply exec_op_claimed_stays.
Qed.

(** Distinct positions of a collection with unique identities carry
    distinct identities. *)
Lemma ids_unique_lookup bs j k d1 d2 idv :
  ids_unique bs →
  bs !! j = Some d1 → bs !! k = Some d2 →
  d1 !! "_id" = Some idv → d2 !! "_id" = Some idv → j = k.
Proof.
  unfold ids_unique. revert j k.
  induction bs as [|d bs IH]; intros j k Hu Hj Hk H1 H2; [done|].
  simpl in Hu.
  assert (∀ d', d' ∈ bs → d' !! "_id" = Some idv → d !! "_id" = Some idv → False) as Hno.
  { intros d' Hd' Hid' Hid. rewrite Hid in Hu. apply NoDup_cons in Hu as [Hu _].
    apply Hu. apply list_elem_of_omap. eauto. }
  assert (NoDup (omap (fun d : Doc => d !! "_id") bs)) as Hu'.
  { destruct (d !! "_id"); [by apply NoDup_cons in Hu as [_ ?]|done]. }
  destruct j as [|j], k as [|k]; simpl in *; simplify_eq; [done| | |f_equal; eauto].
  - destruct (Hno d2); [by eapply list_elem_of_lookup_2|done..].
  - destruct (Hno d1); [by eapply list_elem_of_lookup_2|done..].
Qed.

Lemma ids_unique_settled bs k d idv :
  ids_unique bs → bs !! k = Some d → d !! "_id" = Some idv →
  d !! "picked" = Some (VBool true) → settled idv bs.
Proof.
  intros Hu Hk Hid Hp. split.
  - exists d. split; [by eapply list_elem_of_lookup_2|done].
  - intros d' [k' Hk']%list_elem_of_lookup Hid'.
    assert (k' = k) as -> by (eapply ids_unique_lookup; eauto). congruence.
Qed.

Lemma update_one_set_picked_ids idv bs :
  omap (fun d : Doc => d !! "_id") (update_one_set_picked idv bs)
  = omap (fun d : Doc => d !! "_id") bs.
Proof.
  induction bs as [|d bs IH]; [done|]. unfold omap in *. simpl.
  destruct (has_id idv d); simpl.
  - by rewrite lookup_insert_ne.
  - by rewrite IH.
Qed.

(** The store keeps the identities of the collection pairwise distinct. *)
Lemma exec_op_ids_unique {B} e (op : StoreOp B) st :
  ids_unique (bottles st) → ids_unique (bottles (exec_op e op st).1).
Proof.
  intros Hu. unfold exec_op. destruct (fault e); [done|].
  destruct op; simpl; try done.
  - by destruct (find_one_and_update_inc _ _) as [[]|].
  - unfold insert_one. destruct (existsb _ _) eqn:E; simpl; [done|].
    unfold ids_unique. rewrite omap_app. simpl. rewrite lookup_insert_eq.
    apply NoDup_app. split; [done|]. split; [|apply NoDup_singleton].
    intros idv [d [Hd Hid]]%list_elem_of_omap ->%list_elem_of_singleton.
    by rewrite (existsb_has_id _ _ _ Hd Hid) in E.
  - unfold ids_unique. by rewrite update_one_set_picked_ids.
Qed.

Lemma pool_run_ids_unique sched : ∀ w,
  ids_unique (bottles (store w)) → ids_unique (bottles (store (pool_run sched w))).
Proof.
  induction sched as [|c s IH]; intros w Hu; simpl; [done|].
  destruct (pool_step_cases w c) as [->|(B & op & k0 & Hc & ->)]; [by apply IH|].
  apply IH. simpl. by apply exec_op_ids_unique.
Qed.

Lemma later_new w w' new :
  trace w' = (trace w ++ new)%list → later w w' = new.
Proof. intros H. unfold later. by rewrite H, drop_app_length. Qed.

Lemma sampled_calls_of i tr x :
  x ∈ omap sampled_ev (calls_of i tr) → x ∈ omap sampled_ev tr.
Proof.
  rewrite !list_elem_of_omap. intros (ev & Hev & Hx). exists ev. split; [|done].
  by apply list_elem_of_filter in Hev as [_ ?].
Qed.

(** C4. A record whose [picked] field is true stays exactly as it is under
    every store call of every request in every interleaving.  In a
    collection with unique identities, no sampling call made after that
    point answers the record, so a claim request that starts afterwards and
    answers a bottle answers a document with another identity. *)
Theorem claimed_is_final w sched k d :
  bottles (store w) !! k = Some d →
  d !! "picked" = Some (VBool true) →
  let w' := pool_run sched w in
  bottles (store w') !! k = Some d
  ∧ ∀ idv,
      d !! "_id" = Some idv →
      ids_unique (bottles (store w)) →
      ids_unique (bottles (store w'))
      ∧ (∀ i X st0 l,
           (i, X, st0, l) ∈ omap sampled_ev (later w w') →
           ∀ d', d' ∈ l → d' !! "_id" ≠ Some idv)
      ∧ (∀ j X out,
           pool w !! j = Some (serve (PickReq X)) →
           pool w' !! j = Some (Ret (ReplyBottle out)) →
           ∃ st0 d',
             (j, X, st0, [d']) ∈ omap sampled_ev (later w w')
             ∧ d' ∈ bottles st0
             ∧ from_mongo_dict d' = Some out
             ∧ d' !! "_id" ≠ Some idv).
Proof.
  intros Hk Hp w'. split; [by apply pool_run_claimed_stays|].
  intros idv Hid Hu. split; [by apply pool_run_ids_unique|].
  destruct (pool_run_settled idv sched w) as (new & Ht & _ & Hnew).
  { by eapply ids_unique_settled. }
  fold w' in Ht. rewrite (later_new _ _ _ Ht).
  split; [exact Hnew|].
  intros j X out Hj Hout.
  destruct (pool_run_follows sched w j _ Hj) as (new' & q & Ht' & Hq & Hf).
  fold w' in Ht', Hq. rewrite Ht in Ht'. apply app_inv_head in Ht'. subst new'.
  rewrite Hout in Hq. injection Hq as <-.
  apply pick_follows in Hf as (st0 & d' & Hs & Hin & _ & Hv).
  apply sampled_calls_of in Hs.
  exists st0, d'. split; [done|]. split; [done|]. split; [done|].
  eapply Hnew; [exact Hs|left].
Qed.

Lemma claimed_is_final_witness :
  bottles (store (pool_run one_claim (mkWorld claimed_once [serve (PickReq "u2")] [])))
    !! 0%nat
  = Some (<["picked" := VBool true]> doc_a)
  ∧ pool (pool_run one_claim (mkWorld claimed_once [serve (PickReq "u2")] []))
    = [Raise (HTTPException 404 "No available bottles to pick.")].
Proof.
  split; [|vm_compute; reflexivity].
  apply (claimed_is_final (mkWorld claimed_once [serve (PickReq "u2")] []) one_claim
           0%nat (<["picked" := VBool true]> doc_a));
    vm_compute; reflexivity.
Defined.

(** * Further properties of the code *)

(** ** The response model *)

(** X1. Serialising a [BottleOut] and validating the result gives the same
    model back. *)
Theorem BottleOut_round_trip out :
  from_mongo_dict (BottleOut_dict out) = Some out.
Proof. by destruct out. Qed.

(** X2. Validation reads the declared fields only: adding, changing or
    removing any other key of the document, the storage identity included,
    does not change its outcome. *)
Theorem from_mongo_dict_ignores_other_keys d key :
  key ∉ declared_fields →
  (∀ v, from_mongo_dict (<[key := v]> d) = from_mongo_dict d)
  ∧ from_mongo_dict (delete key d) = from_mongo_dict d.
Proof.
  intros Hk. split; [intros v; by apply from_mongo_dict_insert_other|].
  destruct (d !! key) as [v|] eqn:E.
  - rewrite <- (from_mongo_dict_insert_other (delete key d) key v Hk).
    by rewrite insert_delete_id.
  - by rewrite delete_id.
Qed.

Lemma from_mongo_dict_ignores_other_keys_witness :
  from_mongo_dict (<["_id" := VOid 5%N]> (BottleOut_dict out_a)) = Some out_a.
Proof.
  rewrite (proj1 (from_mongo_dict_ignores_other_keys (BottleOut_dict out_a) "_id"
                    ltac:(vm_compute; intros H; discriminate H))).
  reflexivity.
Defined.



(** ** Creating a bottle *)

Lemma exec_insert_ok e st document :
  document !! "_id" = None →
  fault e = false →
  existsb (has_id (VOid (fresh e))) (bottles st) = false →
  exec_op e (InsertOne document) st
  = (mkStore (counters st) (bottles st ++ [<["_id" := VOid (fresh e)]> document]),
     inr (<["_id" := VOid (fresh e)]> document)).
Proof.
  intros Hid Hf Hc. unfold exec_op, insert_one. rewrite Hf, Hid. simpl. by rewrite Hc.
Qed.

Lemma count_documents_snoc bs d :
  count_documents (bs ++ [d])
  = count_documents bs + (if decide (unclaimed d) then 1 else 0).
Proof.
  unfold count_documents. rewrite filter_app, length_app, filter_cons, filter_nil.
  destruct (decide (unclaimed d)); simpl; lia.
Qed.

(** A creation that meets a healthy store, step by step. *)
Lemma add_bottle_run_ok now b es st :
  fault (es 0%nat) = false →
  counter_ok st "bottle_id" →
  fault (es 1%nat) = false →
  existsb (has_id (VOid (fresh (es 1%nat)))) (bottles st) = false →
  let n := default 0 (seq_of st "bottle_id") + 1 in
  ∃ cs,
    run (add_bottle now b) es st
    = (mkStore cs (bottles st ++ [stored_doc now b n (fresh (es 1%nat))]),
       inr (mkBottleOut n (in_content b) (in_images b) (in_sender b)
              (in_sender_id b) false now (in_poke b)))
    ∧ seq_of (mkStore cs (bottles st)) "bottle_id" = Some n.
Proof.
  intros Hf Hok Hf2 Hfree n.
  destruct (alloc_total _ _ _ Hf Hok) as (st1 & d0 & E & _).
  pose proof (seq_of_alloc _ _ _ _ _ E) as Hs.
  pose proof (alloc_step _ _ _ _ _ E) as (Hd & Hc & Hb).
  exists (counters st1). cbn. rewrite E. cbn. unfold subscript. rewrite Hd. cbn.
  rewrite exec_insert_ok; [|done|done|by rewrite Hb]. cbn.
  rewrite Hb. split; [reflexivity|]. by destruct st1.
Qed.

(** X4. On a healthy store whose counter can be incremented and where the
    generated ObjectId is free, a creation answers the request's own fields
    with the next id of the sequence, [picked] false and the clock reading;
    the collection gains exactly one document, at its end, which validates
    to that answer and carries the generated [_id]; the documents already
    there are untouched, the counter holds the new id and the number of
    unclaimed bottles has grown by one. *)
Theorem add_bottle_success now b es st :
  fault (es 0%nat) = false →
  counter_ok st "bottle_id" →
  fault (es 1%nat) = false →
  existsb (has_id (VOid (fresh (es 1%nat)))) (bottles st) = false →
  let n := default 0 (seq_of st "bottle_id") + 1 in
  let out :=
    mkBottleOut n (in_content b) (in_images b) (in_sender b) (in_sender_id b)
                false now (in_poke b) in
  ∃ st' d,
    run (add_bottle now b) es st = (st', inr out)
    ∧ bottles st' = (bottles st ++ [d])%list
    ∧ from_mongo_dict d = Some out
    ∧ d !! "_id" = Some (VOid (fresh (es 1%nat)))
    ∧ seq_of st' "bottle_id" = Some n
    ∧ count_documents (bottles st') = count_documents (bottles st) + 1.
Proof.
  intros Hf Hok Hf2 Hfree n out.
  destruct (add_bottle_run_ok now b es st Hf Hok Hf2 Hfree) as (cs & Hrun & Hs).
  eexists _, _. split; [exact Hrun|]. simpl.
  split; [reflexivity|]. split; [done|]. split; [done|]. split; [exact Hs|].
  rewrite count_documents_snoc. by rewrite decide_True.
Qed.

Lemma add_bottle_success_witness :
  ∃ st' d,
    run (add_bottle "2024-05-01 10:00:00" bottle_a) healthy empty_store
    = (st', inr out_a)
    ∧ bottles st' = [d]
    ∧ from_mongo_dict d = Some out_a.
Proof.
  destruct (add_bottle_success "2024-05-01 10:00:00" bottle_a healthy empty_store)
    as (st' & d & Hrun & Hb & Hv & _);
    [reflexivity|intros d v; vm_compute; discriminate|reflexivity|reflexivity|].
  exists st', d. split; [exact Hrun|]. split; [exact Hb|exact Hv].
Defined.

Lemma exec_alloc_fails e st name :
  fault e = true ∨ ¬ counter_ok st name →
  exec_op e (FindOneAndUpdateInc name) st = (st, inl (PyMongoError (errmsg e))).
Proof.
  intros [Hf|Hbad]; [by apply exec_op_fault|].
  unfold exec_op. destruct (fault e); [done|].
  unfold find_one_and_update_inc.
  destruct (counters st !! name) as [d|] eqn:E.
  - unfold inc_seq. destruct (d !! "seq") as [[]|] eqn:Es; try done;
      destruct Hbad; intros d' v Hd' Hv; simplify_eq; eauto.
  - destruct Hbad. intros d' v Hd'. congruence.
Qed.

(** X5. When the allocator's call fails, because the store fails it or
    because the counter's [seq] field is not a number, the creation raises
    the 500 and the whole store, counter and collection, is as it was: no
    id is consumed and nothing is inserted. *)
Theorem add_bottle_allocation_fails now b es st :
  fault (es 0%nat) = true ∨ ¬ counter_ok st "bottle_id" →
  run (add_bottle now b) es st
  = (st, inl (HTTPException HTTP_500_INTERNAL_SERVER_ERROR
                ("Internal server error while adding bottle: " ++ errmsg (es 0%nat)))).

Proof.
  intros H. cbn. by rewrite (exec_alloc_fails _ _ _ H).
Qed.

Lemma add_bottle_allocation_fails_witness :
  run (add_bottle "2024-05-01 10:00:00" bottle_a)
      (fun _ => mkEnv true 0 0%N "connection closed") only_own
  = (only_own, inl (HTTPException 500
                      "Internal server error while adding bottle: connection closed")).
Proof.
  apply (add_bottle_allocation_fails "2024-05-01 10:00:00" bottle_a
           (fun _ => mkEnv true 0 0%N "connection closed") only_own).
  left. reflexivity.
Defined.

(** ** Claiming a bottle *)

Lemma list_find_unique_id bs k d idv :
  ids_unique bs → bs !! k = Some d → d !! "_id" = Some idv →
  list_find (fun d' : Doc => d' !! "_id" = Some idv) bs = Some (k, d).
Proof.
  intros Hu Hk Hid. apply list_find_Some. split; [done|]. split; [done|].
  intros j d' Hj Hlt Hid'.
  assert (j = k) by (eapply ids_unique_lookup; eauto). lia.
Qed.

Lemma count_documents_claim bs k d :
  bs !! k = Some d → unclaimed d →
  count_documents (<[k := <["picked" := VBool true]> d]> bs) = count_documents bs - 1.
Proof.
  intros Hk Hu. unfold count_documents.
  rewrite insert_take_drop by (by eapply lookup_lt_Some).
  rewrite <- (take_drop_middle bs k d Hk) at 3.
  rewrite !filter_app, !filter_cons, !length_app.
  destruct (decide (unclaimed d)); [|done].
  destruct (decide (unclaimed (<["picked" := VBool true]> d))) as [Hc|_].
  - unfold unclaimed in Hc. by rewrite lookup_insert_eq in Hc.
  - simpl. lia.
Qed.

(** X6. A claim that samples a document which validates, on a healthy
    store with unique identities, answers that document as it was sampled
    (so with [picked] false), sets [picked] to true on that one record and
    changes nothing else: the other records and the counters are as they
    were, the number of unclaimed bottles has dropped by one, and no later
    sampling, for any requester, finds a document with that identity. *)
Theorem pick_random_bottle_success X es st d idv out :
  fault (es 0%nat) = false →
  aggregate_sample (bottles st) X (rnd (es 0%nat)) = [d] →
  d !! "_id" = Some idv →
  from_mongo_dict d = Some out →
  fault (es 1%nat) = false →
  ids_unique (bottles st) →
  ∃ k,
    bottles st !! k = Some d
    ∧ run (pick_random_bottle X) es st
      = (mkStore (counters st) (<[k := <["picked" := VBool true]> d]> (bottles st)),
         inr out)
    ∧ picked out = false
    ∧ count_documents (<[k := <["picked" := VBool true]> d]> (bottles st))
      = count_documents (bottles st) - 1
    ∧ ∀ Y r d2,
        d2 ∈ aggregate_sample (<[k := <["picked" := VBool true]> d]> (bottles st)) Y r →
        d2 !! "_id" ≠ Some idv.
Proof.
  intros Hf Hs Hid Hv Hf2 Hu.
  assert (d ∈ bottles st ∧ eligible X d) as [Hin Hel].
  { assert (d ∈ aggregate_sample (bottles st) X (rnd (es 0%nat))) as Hd
      by (rewrite Hs; left).
    apply sample1_spec in Hd as [_ Hd]. by apply list_elem_of_filter in Hd as [? ?]. }
  apply list_elem_of_lookup in Hin as [k Hk]. exists k. split; [done|].
  pose proof (list_find_unique_id _ _ _ _ Hu Hk Hid) as Hfind.
  split; [|split; [|split]].
  - cbn. rewrite (exec_sample_ok _ _ _ Hf), Hs. cbn.
    unfold subscript. rewrite Hid. cbn.
    rewrite (exec_mark_ok _ _ _ Hf2), Hv. cbn.
    by rewrite update_one_set_picked_find, Hfind.
  - apply from_mongo_dict_fields in Hv as (_ & _ & Hp).
    destruct Hel as [Hpf _]. congruence.
  - apply count_documents_claim; [done|by destruct Hel].
  - intros Y r d2 Hd2 Hid2. unfold aggregate_sample in Hd2.
    apply sample1_spec in Hd2 as [_ Hd2].
    apply list_elem_of_filter in Hd2 as [[Hp2 _] Hd2].
    apply list_elem_of_lookup in Hd2 as [j Hj].
    destruct (decide (j = k)) as [->|Hne].
    + rewrite list_lookup_insert_eq in Hj by (by eapply lookup_lt_Some).
      injection Hj as <-. by rewrite lookup_insert_eq in Hp2.
    + rewrite list_lookup_insert_ne in Hj by done.
      apply Hne. eapply ids_unique_lookup; eauto.
Qed.

Lemma pick_random_bottle_success_witness :
  ∃ k,
    bottles two_bottles !! k = Some doc_b
    ∧ run (pick_random_bottle "u1") healthy two_bottles
      = (mkStore (counters two_bottles)
           (<[k := <["picked" := VBool true]> doc_b]> (bottles two_bottles)),
         inr out_b).
Proof.
  destruct (pick_random_bottle_success "u1" healthy two_bottles doc_b (VOid 3%N) out_b)
    as (k & Hk & Hrun & _);
    [reflexivity|vm_compute; reflexivity|vm_compute; reflexivity
    |vm_compute; reflexivity|reflexivity
    |unfold ids_unique; apply (bool_decide_unpack _); vm_compute; exact I|].
  exists k. split; [exact Hk|exact Hrun].
Defined.

(** A document that lacks a required field does not validate. *)
Lemma missing_field_rejected d f :
  f ∈ required_fields → d !! f = None → from_mongo_dict d = None.
Proof.
  intros Hf Hnone. apply list_elem_of_In in Hf. simpl in Hf.
  unfold from_mongo_dict.
  repeat (destruct Hf as [<-|Hf];
          [rewrite Hnone; simpl;
           repeat (match goal with
                   | |- context [as_int ?x] => destruct (as_int x); simpl
                   | |- context [as_str ?x] => destruct (as_str x); simpl
                   | |- context [as_images ?x] => destruct (as_images x); simpl
                   | |- context [as_bool ?x] => destruct (as_bool x); simpl
                   end); done|]).
  done.
Qed.

(** X7. The record is marked before the sampled document is validated: a
    claim that samples a document lacking one of the fields [BottleOut]
    requires still sets [picked] on the record carrying its [_id], and
    then raises a 500.  The bottle is taken out of circulation although no
    requester received it. *)
Theorem pick_marks_before_validating X es st d idv f :
  fault (es 0%nat) = false →
  aggregate_sample (bottles st) X (rnd (es 0%nat)) = [d] →
  d !! "_id" = Some idv →
  f ∈ required_fields →
  d !! f = None →
  fault (es 1%nat) = false →
  ids_unique (bottles st) →
  ∃ k detail,
    bottles st !! k = Some d
    ∧ run (pick_random_bottle X) es st
      = (mkStore (counters st) (<[k := <["picked" := VBool true]> d]> (bottles st)),
         inl (HTTPException HTTP_500_INTERNAL_SERVER_ERROR detail))
    ∧ count_documents (<[k := <["picked" := VBool true]> d]> (bottles st))
      = count_documents (bottles st) - 1.
Proof.
  intros Hf Hs Hid Hreq Hnone Hf2 Hu.
  pose proof (missing_field_rejected d f Hreq Hnone) as Hv.
  assert (d ∈ bottles st ∧ eligible X d) as [Hin Hel].
  { assert (d ∈ aggregate_sample (bottles st) X (rnd (es 0%nat))) as Hd
      by (rewrite Hs; left).
    apply sample1_spec in Hd as [_ Hd]. by apply list_elem_of_filter in Hd as [? ?]. }
  apply list_elem_of_lookup in Hin as [k Hk]. exists k. eexists. split; [done|].
  pose proof (list_find_unique_id _ _ _ _ Hu Hk Hid) as Hfind. split.
  - cbn. rewrite (exec_sample_ok _ _ _ Hf), Hs. cbn.
    unfold subscript. rewrite Hid. cbn.
    rewrite (exec_mark_ok _ _ _ Hf2), Hv. cbn.
    rewrite update_one_set_picked_find, Hfind. reflexivity.
  - apply count_documents_claim; [done|by destruct Hel].
Qed.

Lemma pick_marks_before_validating_witness :
  ∃ k detail,
    bottles foreign_store !! k = Some foreign_doc
    ∧ run (pick_random_bottle "u1") healthy foreign_store
      = (mkStore (counters foreign_store)
           (<[k := <["picked" := VBool true]> foreign_doc]> (bottles foreign_store)),
         inl (HTTPException 500 detail)).
Proof.
  destruct (pick_marks_before_validating "u1" healthy foreign_store foreign_doc
              (VOid 9%N) "content")
    as (k & detail & Hk & Hrun & _);
    [reflexivity|vm_compute; reflexivity|vm_compute; reflexivity
    |apply list_elem_of_In; simpl; tauto|vm_compute; reflexivity|reflexivity
    |unfold ids_unique; apply (bool_decide_unpack _); vm_compute; exact I|].
  exists k, detail. split; [exact Hk|exact Hrun].
Defined.

(** X8. On a store that answers the sampling call, a claim raises the 404
    exactly when no record is eligible for the requester; with something
    eligible its outcome is a bottle or a 500, never the 404. *)
Theorem pick_not_found_iff_nothing_eligible X es st :
  fault (es 0%nat) = false →
  (run (pick_random_bottle X) es st).2
  = inl (HTTPException HTTP_404_NOT_FOUND "No available bottles to pick.")
  ↔ filter (eligible X) (bottles st) = [].
Proof.
  intros Hf. split.
  - cbn. rewrite (exec_sample_ok _ _ _ Hf). cbn. unfold aggregate_sample.
    destruct (sample1 _ _) as [|d l] eqn:E; [intros _; by apply sample1_nil in E|].
    cbn. unfold subscript. destruct (d !! "_id") as [idv|]; cbn; [|done].
    destruct (exec_op (es 1%nat) _ st) as [st2 [ex|[]]] eqn:E2; cbn.
    { by apply exec_op_raises in E2 as [-> _]. }
    destruct (from_mongo_dict d); cbn; done.
  - intros Hnone. rewrite (pick_raises_when_none_eligible X es st Hnone).
    by rewrite Hf.
Qed.

Lemma pick_not_found_iff_nothing_eligible_witness :
  (run (pick_random_bottle "u1") healthy only_own).2
  = inl (HTTPException 404 "No available bottles to pick.").
Proof.
  apply (pick_not_found_iff_nothing_eligible "u1" healthy only_own eq_refl).
  vm_compute. reflexivity.
Defined.

(** ** What the handlers can raise *)

(** X9. Whatever the store does, no handler lets an exception of its own
    escape: a creation and a count end in their answer or in a 500, a claim
    in its answer, the 404 or a 500. *)
Theorem handlers_raise_only_http es st :
  (∀ now b,
     match (run (add_bottle now b) es st).2 with
     | inr _ => True
     | inl ex => ∃ detail, ex = HTTPException HTTP_500_INTERNAL_SERVER_ERROR detail
     end)
  ∧ (∀ X,
       match (run (pick_random_bottle X) es st).2 with
       | inr _ => True
       | inl ex =>
           ex = HTTPException HTTP_404_NOT_FOUND "No available bottles to pick."
           ∨ ∃ detail, ex = HTTPException HTTP_500_INTERNAL_SERVER_ERROR detail
       end)
  ∧ match (run get_active_bottle_counts es st).2 with
    | inr _ => True
    | inl ex => ∃ detail, ex = HTTPException HTTP_500_INTERNAL_SERVER_ERROR detail
    end.
Proof.
  split; [|split].
  - intros now b. cbn.
    destruct (exec_op (es 0%nat) _ st) as [st1 [ex|d]]; cbn; [eauto|].
    unfold subscript. destruct (d !! "seq"); cbn; [|eauto].
    destruct (exec_op (es 1%nat) _ st1) as [st2 [ex|d2]]; cbn; [eauto|].
    destruct (from_mongo_dict d2); cbn; eauto.
  - intros X. cbn.
    destruct (exec_op (es 0%nat) _ st) as [st1 [ex|l]] eqn:E; cbn.
    { apply exec_op_raises in E as [-> _]. cbn. eauto. }
    destruct l as [|d l]; cbn; [by left|].
    unfold subscript. destruct (d !! "_id"); cbn; [|eauto].
    destruct (exec_op (es 1%nat) _ st1) as [st2 [ex|[]]] eqn:E2; cbn.
    { apply exec_op_raises in E2 as [-> _]. cbn. eauto. }
    destruct (from_mongo_dict d); cbn; eauto.
  - cbn. destruct (exec_op (es 0%nat) _ st) as [st1 [ex|n]]; cbn; eauto.
Qed.

(** ** A creation followed by a claim *)

Lemma update_one_set_picked_app idv bs l :
  existsb (has_id idv) bs = false →
  update_one_set_picked idv (bs ++ l) = (bs ++ update_one_set_picked idv l)%list.
Proof.
  induction bs as [|d bs IH]; simpl; [done|].
  destruct (has_id idv d); simpl; [done|]. intros H. by rewrite IH.
Qed.

Lemma stored_doc_fields now b n oid :
  stored_doc now b n oid !! "_id" = Some (VOid oid)
  ∧ stored_doc now b n oid !! "picked" = Some (VBool false)
  ∧ stored_doc now b n oid !! "sender_id" = Some (VStr (in_sender_id b))
  ∧ from_mongo_dict (stored_doc now b n oid)
    = Some (mkBottleOut n (in_content b) (in_images b) (in_sender b)
              (in_sender_id b) false now (in_poke b)).
Proof. done. Qed.

(** X10. A bottle just created is what the next claim by another
    requester answers when nothing else is eligible for that requester:
    the claim returns exactly the creation's answer, the number of
    unclaimed bottles is back to what it was before the creation, and
    whoever had nothing eligible before still has nothing eligible. *)
Theorem created_bottle_is_claimed_next now b es st Y es' :
  fault (es 0%nat) = false →
  counter_ok st "bottle_id" →
  fault (es 1%nat) = false →
  existsb (has_id (VOid (fresh (es 1%nat)))) (bottles st) = false →
  in_sender_id b ≠ Y →
  filter (eligible Y) (bottles st) = [] →
  fault (es' 0%nat) = false →
  fault (es' 1%nat) = false →
  ∃ st1 st2 out,
    run (add_bottle now b) es st = (st1, inr out)
    ∧ run (pick_random_bottle Y) es' st1 = (st2, inr out)
    ∧ sender_id out = in_sender_id b
    ∧ count_documents (bottles st2) = count_documents (bottles st)
    ∧ ∀ Z, filter (eligible Z) (bottles st) = [] →
           filter (eligible Z) (bottles st2) = [].
Proof.
  intros Hf Hok Hf2 Hfree Hne Hnone Hf' Hf2'.
  destruct (add_bottle_run_ok now b es st Hf Hok Hf2 Hfree) as (cs & Hrun & _).
  set (n := default 0 (seq_of st "bottle_id") + 1) in *.
  set (d := stored_doc now b n (fresh (es 1%nat))) in *.
  destruct (stored_doc_fields now b n (fresh (es 1%nat))) as (Hid & Hp & Hs & Hv).
  fold d in Hid, Hp, Hs, Hv. clearbody d n.
  assert (eligible Y d) as Hel.
  { split; [done|]. rewrite Hs. congruence. }
  eexists _, _, _. split; [exact Hrun|].
  assert (aggregate_sample (bottles st ++ [d]) Y (rnd (es' 0%nat)) = [d]) as Hsam.
  { unfold aggregate_sample. rewrite filter_app, Hnone, filter_cons, filter_nil.
    rewrite decide_True by done. simpl. unfold sample1.
    change (length [d]) with 1%nat. by rewrite Nat.mod_1_r. }
  split; [|split; [done|split]].
  - cbn. rewrite (exec_sample_ok _ _ _ Hf'). cbn [bottles]. rewrite Hsam. cbn.
    unfold subscript. rewrite Hid. cbn.
    rewrite (exec_mark_ok _ _ _ Hf2'), Hv. cbn. reflexivity.
  - simpl. rewrite update_one_set_picked_app by done. simpl.
    unfold has_id. rewrite bool_decide_eq_true_2 by done.
    rewrite count_documents_snoc. rewrite decide_False; [lia|].
    unfold unclaimed. by rewrite lookup_insert_eq.
  - intros Z HZ. simpl. rewrite update_one_set_picked_app by done. simpl.
    unfold has_id. rewrite bool_decide_eq_true_2 by done.
    rewrite filter_app, HZ, filter_cons, filter_nil.
    rewrite decide_False; [done|]. intros [Hc _]. by rewrite lookup_insert_eq in Hc.
Qed.

Lemma created_bottle_is_claimed_next_witness :
  ∃ st1 st2,
    run (add_bottle "2024-05-01 10:00:00" bottle_a) healthy empty_store = (st1, inr out_a)
    ∧ run (pick_random_bottle "u2") healthy st1 = (st2, inr out_a).
Proof.
  destruct (created_bottle_is_claimed_next "2024-05-01 10:00:00" bottle_a healthy
              empty_store "u2" healthy)
    as (st1 & st2 & out & Hadd & Hpick & _);
    [reflexivity|intros d v; vm_compute; discriminate|reflexivity|reflexivity
    |discriminate|reflexivity|reflexivity|reflexivity|].
  assert (out = out_a) as ->.
  { assert (H : (run (add_bottle "2024-05-01 10:00:00" bottle_a) healthy empty_store).2
                = inr out_a) by (vm_compute; reflexivity).
    rewrite Hadd in H. by injection H. }
  exists st1, st2. split; [exact Hadd|exact Hpick].
Defined.

(** ** What any interleaving preserves *)

Lemma update_one_set_picked_at idv bs k d :
  bs !! k = Some d →
  ∃ d', update_one_set_picked idv bs !! k = Some d'
        ∧ (d' = d ∨ d' = <["picked" := VBool true]> d).
Proof.
  revert k. induction bs as [|d0 bs IH]; intros k Hk; [done|]. simpl.
  destruct (has_id idv d0).
  - destruct k as [|k]; simpl in *; [injection Hk as ->|]; eauto.
  - destruct k as [|k]; simpl in *; [injection Hk as ->; eauto|]. by apply IH.
Qed.

Lemma exec_op_record_kept {B} e (op : StoreOp B) st k d :
  bottles st !! k = Some d →
  ∃ d', bottles (exec_op e op st).1 !! k = Some d'
        ∧ (d' = d ∨ d' = <["picked" := VBool true]> d).
Proof.
  intros Hk. unfold exec_op. destruct (fault e); [eauto|].
  destruct op; simpl; eauto.
  - destruct (find_one_and_update_inc _ _) as [[]|]; eauto.
  - unfold insert_one. destruct (existsb _ _); simpl; [eauto|].
    exists d. split; [|by left]. by apply lookup_app_l_Some.
  - by apply update_one_set_picked_at.
Qed.

(** X11. Records are never removed, moved or edited: along any
    interleaving of any requests, a document of the collection stays at its
    position and is either exactly as it was or as it was with [picked] set
    to true. *)
Theorem records_only_change_by_claim sched w k d :
  bottles (store w) !! k = Some d →
  ∃ d', bottles (store (pool_run sched w)) !! k = Some d'
        ∧ (d' = d ∨ d' = <["picked" := VBool true]> d).
Proof.
  revert w d. induction sched as [|c s IH]; intros w d Hk; simpl; [eauto|].
  destruct (pool_step_cases w c) as [->|(B & op & k0 & Hc & ->)]; [by apply IH|].
  destruct (exec_op_record_kept c.2 op (store w) k d Hk) as (d1 & Hk1 & Hd1).
  destruct (IH (mkWorld (exec_op c.2 op (store w)).1
                  (<[c.1 := k0 (exec_op c.2 op (store w)).2]> (pool w))
                  (trace w ++ [Called c.1 (store w) op (exec_op c.2 op (store w)).2]))
               d1 Hk1) as (d' & Hk' & Hd').
  exists d'. split; [done|].
  destruct Hd1 as [->| ->]; [done|]. right.
  destruct Hd' as [->| ->]; [done|]. by rewrite insert_insert_eq.
Qed.

Lemma records_only_change_by_claim_witness :
  ∃ d', bottles (store (pool_run both_sample_first (boot only_own two_claims))) !! 0%nat
        = Some d'
        ∧ (d' = doc_a ∨ d' = <["picked" := VBool true]> doc_a).
Proof.
  apply (records_only_change_by_claim both_sample_first (boot only_own two_claims)
           0%nat doc_a).
  vm_compute. reflexivity.
Defined.

(** X12. The identities of the collection stay pairwise distinct along any
    interleaving of any requests: an insert with an [_id] already present
    is refused and the mark never touches [_id]. *)
Theorem identities_stay_unique sched w :
  ids_unique (bottles (store w)) →
  ids_unique (bottles (store (pool_run sched w))).
Proof. apply pool_run_ids_unique. Qed.

Lemma identities_stay_unique_witness :
  ids_unique (bottles (store (pool_run overlapped (boot empty_store two_creations)))).
Proof.
  apply (identities_stay_unique overlapped (boot empty_store two_creations)).
  unfold ids_unique. apply (bool_decide_unpack _). vm_compute. exact I.
Defined.

(** The ids issued along a run, counted from the counter's value. *)
Lemma pool_run_issued_consecutive name sched : ∀ w,
  let c := default 0 (seq_of (store w) name) in
  let ids := issued name (later w (pool_run sched w)) in
  ids = seqZ (c + 1) (Z.of_nat (length ids))
  ∧ default 0 (seq_of (store (pool_run sched w)) name) = c + Z.of_nat (length ids).
Proof.
  induction sched as [|c0 s IH]; intros w; simpl.
  { unfold later. rewrite drop_all. simpl. split; [done|lia]. }
  destruct (pool_step_cases w c0) as [->|(B & op & k & Hc & Hw)]; [by apply IH|].
  rewrite Hw. set (w1 := mkWorld _ _ _).
  specialize (IH w1) as [IH1 IH2].
  destruct (pool_run_trace s w1) as (new & Ht).
  rewrite (later_new w1 _ new Ht) in IH1, IH2.
  rewrite (later_new w _ (Called c0.1 (store w) op (exec_op c0.2 op (store w)).2 :: new)).
  2:{ rewrite Ht. subst w1. simpl. by rewrite <- app_assoc. }
  rewrite issued_cons.
  pose proof (exec_op_issued name c0.1 c0.2 op (store w)) as Hi.
  subst w1. simpl in IH1, IH2.
  destruct (issued_ev name _) as [[i n]|]; simpl.
  - destruct Hi as (_ & -> & Hi). rewrite Hi in IH1, IH2. simpl in *.
    rewrite IH2. split; [|lia].
    rewrite seqZ_cons by lia. f_equal.
    rewrite IH1 at 1. f_equal; lia.
  - rewrite Hi in IH1, IH2. done.
Qed.

(** X13. The allocator leaves no gap of its own: along any interleaving,
    the ids issued from a sequence are the consecutive integers that follow
    the counter's value at the start (a missing counter counting as zero),
    and the counter ends at the last of them. *)
Theorem issued_ids_are_consecutive name sched w :
  let c := default 0 (seq_of (store w) name) in
  let w' := pool_run sched w in
  let ids := issued name (later w w') in
  ids = seqZ (c + 1) (Z.of_nat (length ids))
  ∧ default 0 (seq_of (store w') name) = c + Z.of_nat (length ids).
Proof. apply pool_run_issued_consecutive. Qed.

(** ** The ids of the stored bottles *)

Lemma omap_cons_app {A C} (f : A → option C) x l :
  omap f (x :: l)
  = (match f x with Some y => [y] | None => [] end ++ omap f l)%list.
Proof. unfold omap. simpl. by destruct (f x). Qed.

Lemma bids_app bs l : bids (bs ++ l) = (bids bs ++ bids l)%list.
Proof. unfold bids. apply omap_app. Qed.

Lemma update_one_set_picked_bids idv bs :
  bids (update_one_set_picked idv bs) = bids bs.
Proof.
  unfold bids. induction bs as [|d bs IH]; [done|]. unfold omap in *. simpl.
  destruct (has_id idv d); simpl.
  - by rewrite lookup_insert_ne.
  - by rewrite IH.
Qed.

(** A call adds to the collection's ids the id of the document it
    inserted, if it inserted one. *)
Lemma exec_op_bids {B} tid e (op : StoreOp B) st :
  bids (bottles (exec_op e op st).1)
  = (bids (bottles st)
     ++ match inserted_ev (Called tid st op (exec_op e op st).2) with
        | Some n => [n]
        | None => []
        end)%list.
Proof.
  unfold exec_op. destruct (fault e); [destruct op; simpl; by rewrite app_nil_r|].
  destruct op; simpl; rewrite ?app_nil_r; try done.
  - by destruct (find_one_and_update_inc _ _) as [[]|].
  - unfold insert_one. destruct (existsb _ _); simpl; [by rewrite app_nil_r|].
    rewrite bids_app. f_equal; unfold bids, omap; simpl; by destruct (as_int _).
  - apply update_one_set_picked_bids.
Qed.

Lemma pool_run_bids sched : ∀ w,
  bids (bottles (store (pool_run sched w)))
  = (bids (bottles (store w)) ++ omap inserted_ev (later w (pool_run sched w)))%list.
Proof.
  induction sched as [|c s IH]; intros w; simpl.
  { unfold later. rewrite drop_all. by rewrite app_nil_r. }
  destruct (pool_step_cases w c) as [->|(B & op & k & Hc & Hw)]; [by apply IH|].
  rewrite Hw. set (w1 := mkWorld _ _ _).
  destruct (pool_run_trace s w1) as (new & Ht).
  rewrite (later_new w _ (Called c.1 (store w) op (exec_op c.2 op (store w)).2 :: new)).
  2:{ rewrite Ht. subst w1. simpl. by rewrite <- app_assoc. }
  rewrite IH, (later_new w1 _ new Ht). subst w1. cbn [store].
  rewrite (exec_op_bids c.1), <- app_assoc. f_equal.
  by rewrite omap_cons_app.
Qed.

Lemma follows_finished_Raise {A} ex tr i (q : Prog A) :
  follows (Raise ex) tr i q → tr = [].
Proof. by destruct tr. Qed.

Lemma follows_finished_Ret {A} (a : A) tr i (q : Prog A) :
  follows (Ret a) tr i q → tr = [].
Proof. by destruct tr. Qed.

(** Brings a coroutine that has finished to the end of its calls. *)
Ltac finished H :=
  cbn in H;
  repeat match type of H with
         | context [match ?ex with HTTPException _ _ => _ | _ => _ end] =>
             destruct ex; cbn in H
         end;
  first [apply follows_finished_Raise in H | apply follows_finished_Ret in H];
  subst.

(** The calls of one request insert at most one document, and its
    [bottle_id] is an id the allocator issued to that very request. *)
Lemma serve_follows_inserts req tr i q :
  follows (serve req) tr i q →
  omap inserted_ev tr = []
  ∨ ∃ n, omap inserted_ev tr = [n] ∧ (i, n) ∈ issued_by "bottle_id" tr.
Proof.
  intros H.
  destruct req as [now b|X|]; (destruct tr as [|ev1 tr]; [by left|]); cbn in H;
    destruct H as (e & st & -> & H).
  - destruct (exec_op e _ st) as [st' [ex|d]] eqn:E; cbn in H.
    { finished H; by left. }
    apply alloc_step in E as (Hd & _). unfold subscript in H. rewrite Hd in H. cbn in H.
    destruct tr as [|ev2 tr]; [by left|]. cbn in H. destruct H as (e2 & st2 & -> & H).
    destruct (exec_op e2 _ st2) as [st2' [ex|d2]] eqn:E2; cbn in H.
    { finished H; by left. }
    apply insert_step in E2 as (-> & _).
    assert (tr = []) as ->.
    { destruct (from_mongo_dict _); finished H; done. }
    right. eexists. split.
    + rewrite !omap_cons_app. cbn. rewrite lookup_insert_ne by done. reflexivity.
    + unfold issued_by. rewrite omap_cons_app. cbn. rewrite Hd. cbn. left.
  - left. destruct (exec_op e _ st) as [st' [ex|l]] eqn:E; cbn in H.
    { finished H; done. }
    destruct l as [|d l]; cbn in H; [finished H; done|].
    unfold subscript in H. destruct (d !! "_id") as [idv|]; cbn in H; [|finished H; done].
    destruct tr as [|ev2 tr]; [done|]. cbn in H. destruct H as (e2 & st2 & -> & H).
    destruct (exec_op e2 _ st2) as [st2' [ex|[]]] eqn:E2; cbn in H.
    { finished H; done. }
    destruct (from_mongo_dict d); finished H; done.
  - left. destruct (exec_op e _ st) as [st' [ex|n]] eqn:E; cbn in H; finished H; done.
Qed.

(** A request that is not in the pool makes no call. *)
Lemma pool_run_calls_none sched : ∀ w i,
  pool w !! i = None → calls_of i (later w (pool_run sched w)) = [].
Proof.
  induction sched as [|c s IH]; intros w i Hi; simpl.
  { unfold later. by rewrite drop_all. }
  destruct (pool_step_cases w c) as [->|(B & op & k & Hc & Hw)]; [by apply IH|].
  rewrite Hw. set (w1 := mkWorld _ _ _).
  destruct (pool_run_trace s w1) as (new & Ht).
  rewrite (later_new w _ (Called c.1 (store w) op (exec_op c.2 op (store w)).2 :: new)).
  2:{ rewrite Ht. subst w1. simpl. by rewrite <- app_assoc. }
  assert (c.1 ≠ i) as Hne by (intros Heq; rewrite Heq in Hc; congruence).
  unfold calls_of. rewrite filter_cons_False by done.
  rewrite <- (later_new w1 _ new Ht). apply IH.
  subst w1. simpl. by rewrite list_lookup_insert_ne.
Qed.

(** Values that each request contributes at most once, and that no two
    requests share, are pairwise distinct along the whole trace. *)
Lemma NoDup_by_request {C} (f : Event → option C) (tr : list Event) :
  (∀ i, length (omap f (calls_of i tr)) ≤ 1)%nat →
  (∀ ev1 ev2 x, ev1 ∈ tr → ev2 ∈ tr → f ev1 = Some x → f ev2 = Some x →
                ev_tid ev1 = ev_tid ev2) →
  NoDup (omap f tr).
Proof.
  induction tr as [|ev tr IH]; intros Hone Hsame; [constructor|].
  assert (NoDup (omap f tr)) as Htr.
  { apply IH.
    - intros i. specialize (Hone i). unfold calls_of in *.
      rewrite filter_cons in Hone. destruct (decide _); [|done].
      rewrite omap_cons_app, length_app in Hone. lia.
    - intros ev1 ev2 x H1 H2. apply Hsame; by right. }
  rewrite omap_cons_app. destruct (f ev) as [x|] eqn:Hx; [|done]. simpl.
  constructor; [|done].
  intros (ev2 & Hin & Hx2)%list_elem_of_omap.
  assert (ev_tid ev = ev_tid ev2) as Ht.
  { eapply Hsame; [left|by right|done..]. }
  specialize (Hone (ev_tid ev)). unfold calls_of in Hone.
  rewrite filter_cons_True, omap_cons_app, Hx in Hone by done. simpl in Hone.
  assert (x ∈ omap f (filter (λ ev0, ev_tid ev0 = ev_tid ev) tr)) as Hmem.
  { apply list_elem_of_omap. exists ev2. split; [|done].
    apply list_elem_of_filter. by split. }
  destruct (omap f (filter _ tr)); [by apply elem_of_nil in Hmem|simpl in Hone; lia].
Qed.

Lemma inserted_calls_of i tr n :
  n ∈ omap inserted_ev (calls_of i tr) ↔
  ∃ ev, ev ∈ tr ∧ ev_tid ev = i ∧ inserted_ev ev = Some n.
Proof.
  rewrite list_elem_of_omap. unfold calls_of. split.
  - intros (ev & [? ?]%list_elem_of_filter & ?). eauto.
  - intros (ev & ? & ? & ?). exists ev. split; [|done]. by apply list_elem_of_filter.
Qed.

(** X14. The [bottle_id]s of the stored bottles stay pairwise distinct and
    never exceed the counter: when that holds of the store the requests
    start from (an empty collection, or one this service filled), it holds
    after any interleaving of any creations, claims and counts. *)
Theorem stored_bottle_ids_unique st reqs sched :
  NoDup (bids (bottles st)) →
  (∀ n, n ∈ bids (bottles st) → n ≤ default 0 (seq_of st "bottle_id")) →
  let w := pool_run sched (boot st reqs) in
  NoDup (bids (bottles (store w)))
  ∧ ∀ n, n ∈ bids (bottles (store w)) → n ≤ default 0 (seq_of (store w) "bottle_id").
Proof.
  intros Hnd Hle w.
  pose proof (pool_run_bids sched (boot st reqs)) as Hb. fold w in Hb.
  destruct (pool_run_issued "bottle_id" sched (boot st reqs)) as (new & Ht & Hs & Hgt & Hmono).
  fold w in Ht, Hmono. simpl in Ht, Hgt, Hmono, Hb.
  pose proof (pool_run_issued_consecutive "bottle_id" sched (boot st reqs)) as [Hc1 Hc2].
  fold w in Hc1, Hc2. simpl in Hc1, Hc2.
  assert (later (boot st reqs) w = new) as Hl by (by apply later_new).
  rewrite Hl in Hb, Hc1, Hc2.
  (* what each request inserted was issued to it *)
  assert (∀ i, omap inserted_ev (calls_of i new) = []
               ∨ ∃ n, omap inserted_ev (calls_of i new) = [n]
                      ∧ (i, n) ∈ issued_by "bottle_id" new) as Hreq.
  { intros i. destruct (pool (boot st reqs) !! i) as [p|] eqn:Hp.
    - destruct (pool_run_follows sched (boot st reqs) i p Hp) as (new' & q & Ht' & _ & Hf).
      fold w in Ht'. simpl in Ht'. rewrite Ht in Ht'. subst new'.
      simpl in Hp. rewrite list_lookup_fmap in Hp.
      destruct (reqs !! i) as [req|]; [|done]. injection Hp as <-.
      destruct (serve_follows_inserts _ _ _ _ Hf) as [?|(n & ? & Hn)]; [by left|].
      right. exists n. split; [done|]. by eapply issued_by_calls_of.
    - left. rewrite <- Hl. unfold w. by rewrite pool_run_calls_none. }
  assert (∀ ev n, ev ∈ new → inserted_ev ev = Some n →
                  (ev_tid ev, n) ∈ issued_by "bottle_id" new) as Hins.
  { intros ev n Hev Hn.
    assert (n ∈ omap inserted_ev (calls_of (ev_tid ev) new)) as Hmem.
    { apply inserted_calls_of. eauto. }
    destruct (Hreq (ev_tid ev)) as [H0|(n' & H1 & Hi)].
    - rewrite H0 in Hmem. by apply elem_of_nil in Hmem.
    - rewrite H1 in Hmem. by apply list_elem_of_singleton in Hmem as ->. }
  assert (∀ n, n ∈ omap inserted_ev new → n ∈ issued "bottle_id" new) as Hsub.
  { intros n (ev & Hev & Hn)%list_elem_of_omap.
    apply list_elem_of_fmap. exists (ev_tid ev, n). split; [done|]. by apply Hins. }
  split.
  - rewrite Hb. apply NoDup_app. split; [done|]. split.
    + intros n Hold Hnew. apply Hle in Hold. apply Hsub in Hnew.
      rewrite Forall_forall in Hgt. apply Hgt in Hnew. lia.
    + apply NoDup_by_request.
      * intros i. destruct (Hreq i) as [->|(n & -> & _)]; simpl; lia.
      * intros ev1 ev2 n H1 H2 Hn1 Hn2.
        eapply NoDup_snd_inj; [|by apply Hins..].
        by apply StronglySorted_lt_NoDup.
  - intros n. rewrite Hb. intros [Hold|Hnew]%elem_of_app.
    + apply Hle in Hold. lia.
    + apply Hsub in Hnew. rewrite Hc1 in Hnew. apply elem_of_seqZ in Hnew. lia.
Qed.

Lemma stored_bottle_ids_unique_witness :
  NoDup (bids (bottles (store (pool_run overlapped (boot empty_store two_creations))))).
Proof.
  apply (stored_bottle_ids_unique empty_store two_creations overlapped).
  - constructor.
  - intros n Hn. by apply elem_of_nil in Hn.
Defined.

(** ** More on claims *)

(** X15. When the store fails the mark, the claim raises the 500 and the
    store is as it was: the sampled bottle is still unclaimed and can be
    sampled again. *)
Theorem pick_mark_fails X es st d idv :
  fault (es 0%nat) = false →
  aggregate_sample (bottles st) X (rnd (es 0%nat)) = [d] →
  d !! "_id" = Some idv →
  fault (es 1%nat) = true →
  run (pick_random_bottle X) es st
  = (st, inl (HTTPException HTTP_500_INTERNAL_SERVER_ERROR
                ("Internal server error while picking bottle: " ++ errmsg (es 1%nat))))
  ∧ d ∈ filter (eligible X) (bottles st).
Proof.
  intros Hf Hs Hid Hf2. split.
  - cbn. rewrite (exec_sample_ok _ _ _ Hf), Hs. cbn.
    unfold subscript. rewrite Hid. cbn.
    by rewrite (exec_op_fault _ _ _ Hf2).
  - assert (d ∈ aggregate_sample (bottles st) X (rnd (es 0%nat))) as Hd
      by (rewrite Hs; left).
    by apply sample1_spec in Hd as [_ Hd].
Qed.

Lemma pick_mark_fails_witness :
  run (pick_random_bottle "u2") insert_fails only_own
  = (only_own, inl (HTTPException 500
                      "Internal server error while picking bottle: connection closed")).
Proof.
  apply (pick_mark_fails "u2" insert_fails only_own doc_a (VOid 1%N));
    vm_compute; reflexivity.
Defined.

(** X16. Two claims that overlap can both be answered the same bottle:
    when both sampling calls happen before either mark and draw the same
    document, each request marks it and each answers it, whoever the two
    requesters are. *)
Theorem overlapping_claims_share_a_bottle st X Y d idv out e1 e2 e3 e4 :
  fault e1 = false → fault e2 = false → fault e3 = false → fault e4 = false →
  aggregate_sample (bottles st) X (rnd e1) = [d] →
  aggregate_sample (bottles st) Y (rnd e2) = [d] →
  d !! "_id" = Some idv →
  from_mongo_dict d = Some out →
  pool (pool_run [(0%nat, e1); (1%nat, e2); (0%nat, e3); (1%nat, e4)]
          (boot st [PickReq X; PickReq Y]))
  = [Ret (ReplyBottle out); Ret (ReplyBottle out)].
Proof.
  intros Hf1 Hf2 Hf3 Hf4 Hs1 Hs2 Hid Hv.
  unfold pool_run, boot. cbn.
  rewrite (exec_sample_ok _ _ _ Hf1). cbn. rewrite Hs1. cbn.
  rewrite (exec_sample_ok _ _ _ Hf2). cbn. rewrite Hs2. cbn.
  unfold subscript. rewrite Hid. cbn.
  rewrite (exec_mark_ok _ _ _ Hf3). cbn.
  rewrite (exec_mark_ok _ _ _ Hf4). cbn.
  by rewrite Hv.
Qed.

Lemma overlapping_claims_share_a_bottle_witness :
  pool (pool_run [(0%nat, healthy 0); (1%nat, healthy 0); (0%nat, healthy 0);
                  (1%nat, healthy 0)]
          (boot only_own [PickReq "u2"; PickReq "u3"]))
  = [Ret (ReplyBottle out_a); Ret (ReplyBottle out_a)].
Proof.
  apply (overlapping_claims_share_a_bottle only_own "u2" "u3" doc_a (VOid 1%N) out_a);
    vm_compute; reflexivity.
Defined.

(** ** Loading the module *)

(** X17. The module loads exactly when the connection string and the
    database name are both set to a non-empty string: an empty value is
    refused like a missing one, and the connection string is reported
    first when both are absent. *)
Theorem module_init_loads_iff uri db c :
  (module_init uri db c = Loaded
   ↔ (∃ u, uri = Some u ∧ u ≠ "") ∧ (∃ d, db = Some d ∧ d ≠ ""))
  ∧ module_init (Some "") db c = module_init None db c
  ∧ module_init uri (Some "") c = module_init uri None c
  ∧ module_init None None c = module_init None db c.
Proof.
  split; [|by destruct uri as [u|]; [destruct (String.eqb_spec u "")|]; destruct db].
  unfold module_init, truthy.
  destruct uri as [u|]; [destruct (String.eqb_spec u "") as [->|Hu]|]; simpl.
  - split; [done|]. intros [(u & [= <-] & Hu) _]. done.
  - destruct db as [d|]; [destruct (String.eqb_spec d "") as [->|Hd]|]; simpl.
    + split; [done|]. intros [_ (d & [= <-] & Hd)]. done.
    + split; [|done]. intros _. split; eexists; (split; [reflexivity|done]).
    + split; [done|]. intros [_ (d & [=] & _)].
  - split; [done|]. intros [(u & [=] & _) _].
Qed.
